(** * Endpoint discovery service (pilot/pkg/proxy/envoy/v2/eds.go)

    A shallow embedding of the EDS server of Pilot: the endpoint builder,
    the locality grouper, the cluster cache with its watcher sets, the
    connection-identity counter, the per-stream request handling, the push
    for one connection and the global push.

    Conventions of the embedding.
    - A Go map is a [gmap]; a missing key reads as Go's nil / zero value.
    - A [*EdsCluster] is reachable only through the registry key it was
      created under (and through the temporary copy of the registry made by
      [edsPushAll]), so the registry holds the struct itself and a mutation
      through the pointer is written back under that key.
    - A [*XdsConnection] is compared by pointer in the source; connections
      are therefore named by an address ([conn_ptr]).  The fields of a
      connection are only touched by the goroutine that serves its stream,
      except for the push channel, which the global push writes to; the
      buffered contents of the push channels live in the shared state.
    - Logging and metrics do not influence control flow and are left out.
    - What the file calls and does not define is gathered in the class
      [Collaborators]; a function that reads the clock, the registry or
      the transport takes the world [w] it runs in. *)

From stdpp Require Import gmap strings list fin_maps pretty.
From Stdlib Require Import ZArith Lia Ascii.

Local Open Scope Z_scope.

(** ** Results of fallible functions *)

Inductive result (A : Type) : Type :=
| Ok (a : A)
| Err (e : string).
Arguments Ok {A} a.
Arguments Err {A} e.

Definition is_ok {A} (r : result A) : bool :=
  match r with Ok _ => true | Err _ => false end.

Definition ok_value {A} (r : result A) : option A :=
  match r with Ok a => Some a | Err _ => None end.

(** ** Time *)

(** time.Time, as the number of nanoseconds since the zero instant. *)
Definition Time : Type := Z.

Definition IsZero (t : Time) : bool := (t =? 0)%Z.

(** ** Fixed-width integers *)

Definition uint32 (z : Z) : Z := z mod 2 ^ 32.

(** Two's complement wrap-around of a 64-bit signed integer. *)
Definition int64 (z : Z) : Z := (z + 2 ^ 63) mod 2 ^ 64 - 2 ^ 63.

(** ** Data model *)

(** model.ServiceInstance: the fields this file reads. *)
Record ServiceInstance : Type := {
  Endpoint_Address : string;
  Endpoint_Port : Z;
  AvailabilityZone : string
}.

(** endpoint.LbEndpoint, with the nested address messages flattened to the
    socket address they wrap. *)
Inductive SocketProtocol : Type := TCP | UDP.

Record LbEndpoint : Type := {
  Address : string;
  Ipv4Compat : bool;
  Protocol : SocketProtocol;
  PortValue : Z
}.

(** endpoint.LocalityLbEndpoints: the zone of its locality and its endpoints. *)
Record LocalityLbEndpoints : Type := {
  Zone : string;
  LbEndpoints : list LbEndpoint
}.

(** xdsapi.ClusterLoadAssignment *)
Record ClusterLoadAssignment : Type := {
  ClusterName : string;
  Endpoints : list LocalityLbEndpoints
}.

(** model.Port: the fields this file reads. *)
Record Port : Type := {
  Name : string;
  PortNumber : Z
}.

(** PortList.GetNames *)
Definition GetNames (ports : list Port) : list string := Name <$> ports.

(** The address of an XdsConnection: the source compares connections by
    pointer. *)
Abbreviation conn_ptr := nat.

(** XdsEvent, the value carried by a push channel. *)
Record XdsEvent : Type := {
  clusters : list string
}.

(** EdsCluster.  The mutex is left out (the model is sequential), and so is
    the [discovery] back pointer: every cluster points to the one server,
    whose environment is part of the class [Collaborators]. *)
Record EdsCluster : Type := {
  LoadAssignment : option ClusterLoadAssignment;
  FirstUse : Time;
  EdsClients : gmap string conn_ptr;
  NonEmptyTime : Time
}.

Definition set_LoadAssignment (l : option ClusterLoadAssignment) (c : EdsCluster)
    : EdsCluster :=
  {| LoadAssignment := l; FirstUse := FirstUse c;
     EdsClients := EdsClients c; NonEmptyTime := NonEmptyTime c |}.

Definition set_NonEmptyTime (t : Time) (c : EdsCluster) : EdsCluster :=
  {| LoadAssignment := LoadAssignment c; FirstUse := FirstUse c;
     EdsClients := EdsClients c; NonEmptyTime := t |}.

Definition set_EdsClients (m : gmap string conn_ptr) (c : EdsCluster) : EdsCluster :=
  {| LoadAssignment := LoadAssignment c; FirstUse := FirstUse c;
     EdsClients := m; NonEmptyTime := NonEmptyTime c |}.

(** The package-level variables, and the buffers of the push channels.

    [adsClients] is the connection directory that addCon and removeCon
    maintain; it is declared outside this file.  [pushChannels] holds, for each connection, the event buffered in its
    [pushChannel] (a channel of capacity 1); a connection with an empty
    channel has no binding. *)
Record State : Type := {
  edsClusters : gmap string EdsCluster;
  connectionNumber : Z;
  adsClients : gmap string conn_ptr;
  pushChannels : gmap conn_ptr XdsEvent
}.

Definition set_edsClusters (m : gmap string EdsCluster) (st : State) : State :=
  {| edsClusters := m; connectionNumber := connectionNumber st;
     adsClients := adsClients st; pushChannels := pushChannels st |}.

Definition set_connectionNumber (n : Z) (st : State) : State :=
  {| edsClusters := edsClusters st; connectionNumber := n;
     adsClients := adsClients st; pushChannels := pushChannels st |}.

Definition set_adsClients (m : gmap string conn_ptr) (st : State) : State :=
  {| edsClusters := edsClusters st; connectionNumber := connectionNumber st;
     adsClients := m; pushChannels := pushChannels st |}.

Definition set_pushChannels (m : gmap conn_ptr XdsEvent) (st : State) : State :=
  {| edsClusters := edsClusters st; connectionNumber := connectionNumber st;
     adsClients := adsClients st; pushChannels := m |}.

(** The state of the package when the process starts. *)
Definition initialState : State :=
  {| edsClusters := ∅; connectionNumber := int64 0;
     adsClients := ∅; pushChannels := ∅ |}.

(** XdsConnection: the fields owned by the goroutine of the stream.  The
    buffer of [pushChannel] is in [State]; [stream] names the transport. *)
Record XdsConnection : Type := {
  PeerAddr : string;
  Clusters : list string;
  Connect : Time;
  ConID : string;
  added : bool;
  stream : nat
}.

(** xdsapi.DiscoveryRequest: [Node] is the identifier of the node, when
    the request carries a node. *)
Record DiscoveryRequest : Type := {
  Node : option string;
  ResourceNames : list string;
  VersionInfo : string;
  ErrorDetail : option string
}.

(** xdsapi.DiscoveryResponse.  types.MarshalAny is an injective encoding of
    the load assignment; a resource is kept as the assignment it encodes. *)
Record DiscoveryResponse : Type := {
  TypeUrl : string;
  RespVersionInfo : string;
  Nonce : string;
  Resources : list ClusterLoadAssignment
}.

(** The diagnostics accumulated by pushEds next to the resources. *)
Record PushStats : Type := {
  resAny : list ClusterLoadAssignment;
  endpointsSeen : nat;
  emptyClusters : nat;
  empty : list string
}.

(** The variables of one run of StreamEndpoints: the connection [con]
    points to, the pointer itself, [conID], [initialRequestReceived], and
    the connection identifier captured by the deferred removeCon, once it
    is registered. *)
Record StreamState : Type := {
  con : XdsConnection;
  conPtr : conn_ptr;
  conID : string;
  initialRequestReceived : bool;
  deferred : option string
}.

(** What the select statement of StreamEndpoints can receive. *)
Inductive Event : Type :=
| Request (discReq : DiscoveryRequest)
| Closed (receiveError : option string)
| PushSignal.

(** How the case of a request ends: with [continue], or by leaving the
    select statement towards the push. *)
Inductive Flow : Type := Continue | Proceed.

(** One iteration of the loop of StreamEndpoints: the loop goes on, the
    function returns (its deferred call has run), the goroutine panics on a
    nil dereference, or the event is not ready.  [sends] lists the
    responses handed to stream.Send. *)
Inductive Outcome : Type :=
| Running (st : State) (ss : StreamState) (sends : list DiscoveryResponse)
| Returned (st : State) (err : option string) (sends : list DiscoveryResponse)
| Panicked
| NotReady.

(** edsPushAll runs to its end without any of its sends having to wait, or
    it reaches a send that cannot proceed: its goroutine is then parked on
    the send to the push channel of [edsCon] while it handles
    [clusterName], in the state [st].  [Blocked] is this first park, not
    an end: the send goes on once the stream of [edsCon] has received the
    buffered event, and what the cycle does from there depends on the
    other goroutines, which this sequential model does not follow. *)
Inductive PushAllResult : Type :=
| Completed (st : State)
| Blocked (st : State) (clusterName : string) (edsCon : conn_ptr).

(** strconv.Itoa *)
Definition Itoa (z : Z) : string := pretty z.

(** A string without the character that separates the node from the
    counter in a connection identity. *)
Fixpoint noDash (s : string) : Prop :=
  match s with
  | EmptyString => True
  | String a s' => a ≠ "-"%char ∧ noDash s'
  end.

(** The variable initialRequestReceived of a stream set to [b]. *)
Definition set_initialRequestReceived (b : bool) (ss : StreamState) : StreamState :=
  {| con := con ss; conPtr := conPtr ss; conID := conID ss;
     initialRequestReceived := b; deferred := deferred ss |}.

(** The connection [connection] is registered under [node] as a watcher of
    the cluster [clusterName]. *)
Definition watches (st : State) (clusterName node : string) (connection : conn_ptr)
    : Prop :=
  ∃ c, edsClusters st !! clusterName = Some c ∧ EdsClients c !! node = Some connection.

(** ** External collaborators

    What this file calls and does not define: Go's standard library, the
    model package, the service registry and the configuration store behind
    the environment of the discovery server, the rest of package v2 and
    the transport.  [World] is the world outside this file as it is when a
    function runs. *)
Class Collaborators : Type := {
  (** net.IP, net.ParseIP, IP.To4 *)
  IP : Type;
  ParseIP : string → option IP;
  To4 : IP → option IP;
  World : Type;
  (** time.Now() *)
  Now : World → Time;
  (** model.LabelsCollection *)
  LabelsCollection : Type;
  (** env.ServiceDiscovery.Instances(hostname, ports, labels) *)
  Instances :
    World → string → list string → LabelsCollection → result (list ServiceInstance);
  (** env.IstioConfigStore.SubsetToLabels(subsetName, hostname) *)
  SubsetToLabels : World → string → string → LabelsCollection;
  (** model.ParseSubsetKey: direction, subset name, hostname, port *)
  ParseSubsetKey : string → string * string * string * Port;
  (** model.ParseServiceKey: hostname, ports, labels *)
  ParseServiceKey : string → string * list Port * LabelsCollection;
  (** EndpointType, versionInfo() and nonce() of package v2 *)
  EndpointType : string;
  versionInfo : World → string;
  nonce : World → string;
  (** stream.Send(response) on the transport of a connection: the error, if any *)
  Send : World → nat → DiscoveryResponse → option string
}.

Section Eds.

Context {collaborators : Collaborators}.


(** func newEndpoint(address string, port uint32): an LbEndpoint or an error *)
Definition newEndpoint (address : string) (port : Z) : result LbEndpoint :=
  match ParseIP address with
  | None => Err ("Invalid IP address " +:+ address)
  | Some ipAddr =>
      Ok {| Address := address;
            Ipv4Compat := bool_decide (is_Some (To4 ipAddr));
            Protocol := TCP;
            PortValue := port |}
  end.

(** One iteration of the loop of localityLbEndpointsFromInstances. *)
Definition localityStep (localityEpMap : gmap string LocalityLbEndpoints)
    (instance : ServiceInstance) : gmap string LocalityLbEndpoints :=
  match newEndpoint (Endpoint_Address instance) (uint32 (Endpoint_Port instance)) with
  | Err _ => localityEpMap
  | Ok lbEp =>
      let locality := AvailabilityZone instance in
      let locLbEps :=
        match localityEpMap !! locality with
        | Some found => found
        | None => {| Zone := AvailabilityZone instance; LbEndpoints := [] |}
        end in
      <[locality := {| Zone := Zone locLbEps;
                       LbEndpoints := LbEndpoints locLbEps ++ [lbEp] |}]> localityEpMap
  end.

Definition localityEpMapOf (instances : list ServiceInstance)
    : gmap string LocalityLbEndpoints :=
  foldl localityStep ∅ instances.

(** func localityLbEndpointsFromInstances(instances) []endpoint.LocalityLbEndpoints

    Go ranges over the map in an unspecified order; the model lists the
    groups in the order of [map_to_list], and the statements about the
    output hold for every order. *)
Definition localityLbEndpointsFromInstances (instances : list ServiceInstance)
    : list LocalityLbEndpoints :=
  (map_to_list (localityEpMapOf instances)).*2.

(** The instances the endpoint builder accepts. *)
Definition validAddress (instance : ServiceInstance) : Prop :=
  is_Some (ParseIP (Endpoint_Address instance)).

#[export] Instance validAddress_dec instance : Decision (validAddress instance).
Proof. unfold validAddress. apply _. Defined.

(** The endpoints built, in discovery order, from the instances of zone [z]. *)
Definition zoneEndpoints (z : string) (instances : list ServiceInstance)
    : list LbEndpoint :=
  omap (λ instance,
          if decide (AvailabilityZone instance = z)
          then ok_value (newEndpoint (Endpoint_Address instance)
                                     (uint32 (Endpoint_Port instance)))
          else None) instances.

Definition totalEndpoints (groups : list LocalityLbEndpoints) : nat :=
  sum_list_with (λ g, length (LbEndpoints g)) groups.

(** The group the map holds for zone [z], given the endpoints of the zone. *)
Definition groupOf (z : string) (eps : list LbEndpoint) : option LocalityLbEndpoints :=
  match eps with
  | [] => None
  | _ => Some {| Zone := z; LbEndpoints := eps |}
  end.

(** The endpoints held by a map of groups. *)
Definition mapTotal (m : gmap string LocalityLbEndpoints) : nat :=
  totalEndpoints (map_to_list m).*2.

(** func (s *DiscoveryServer) endpoints(clusterNames, outRes) *)
Definition endpoints (w : World) (clusterNames : list string)
    (outRes : list ClusterLoadAssignment) : DiscoveryResponse :=
  {| TypeUrl := EndpointType;
     RespVersionInfo := versionInfo w;
     Nonce := nonce w;
     Resources := outRes |}.

(** func loadAssignment(c *EdsCluster) *)
Definition loadAssignment (c : EdsCluster) : option ClusterLoadAssignment :=
  LoadAssignment c.

(** The first half of updateCluster: the cluster name is decoded under
    one of the two naming schemes and the registry is asked for the
    instances. *)
Definition clusterInstances (w : World) (clusterName : string)
    : result (list ServiceInstance) :=
  let '(hostname, ports, labels) :=
    if String.prefix "outbound" clusterName || String.prefix "inbound" clusterName
    then
      let '(_, subsetName, hostname, p) := ParseSubsetKey clusterName in
      (hostname, [p], SubsetToLabels w subsetName hostname)
    else ParseServiceKey clusterName in
  Instances w hostname (GetNames ports) labels.

(** func updateCluster(clusterName string, edsCluster *EdsCluster) error:
    the cluster after the call and the error returned. *)
Definition updateCluster (w : World) (clusterName : string) (edsCluster : EdsCluster)
    : EdsCluster * option string :=
  match clusterInstances w clusterName with
  | Err err => (edsCluster, Some err)
  | Ok instances =>
      let locEps := localityLbEndpointsFromInstances instances in
      let c1 :=
        set_LoadAssignment
          (Some {| ClusterName := clusterName; Endpoints := locEps |}) edsCluster in
      let c2 :=
        if bool_decide (0 < length locEps)%nat && IsZero (NonEmptyTime c1)
        then set_NonEmptyTime (Now w) c1
        else c1 in
      (c2, None)
  end.

(** func connectionID(node string) string *)
Definition connectionID (node : string) (st : State) : string * State :=
  let c := int64 (connectionNumber st + 1) in
  (node +:+ "-" +:+ Itoa c, set_connectionNumber c st).

(** func (s *DiscoveryServer) getEdsCluster(clusterName string) *EdsCluster *)
Definition getEdsCluster (clusterName : string) (st : State) : option EdsCluster :=
  edsClusters st !! clusterName.

(** func (s *DiscoveryServer) getOrAddEdsCluster(clusterName string) *EdsCluster *)
Definition getOrAddEdsCluster (w : World) (clusterName : string) (st : State)
    : EdsCluster * State :=
  match edsClusters st !! clusterName with
  | Some c => (c, st)
  | None =>
      let c := {| LoadAssignment := None; FirstUse := Now w;
                  EdsClients := ∅; NonEmptyTime := 0 |} in
      (c, set_edsClusters (<[clusterName := c]> (edsClusters st)) st)
  end.

(** A mutation of the cluster registered under [clusterName], done through
    the pointer the registry holds. *)
Definition storeCluster (clusterName : string) (c : EdsCluster) (st : State) : State :=
  set_edsClusters (<[clusterName := c]> (edsClusters st)) st.

(** func (s *DiscoveryServer) addEdsCon(clusterName, node, connection) *)
Definition addEdsCon (w : World) (clusterName node : string) (connection : conn_ptr)
    (st : State) : State :=
  let '(c, st1) := getOrAddEdsCluster w clusterName st in
  storeCluster clusterName
    (set_EdsClients (<[node := connection]> (EdsClients c)) c) st1.

(** func (s *DiscoveryServer) removeEdsCon(clusterName, node, connection) *)
Definition removeEdsCon (clusterName node : string) (connection : conn_ptr)
    (st : State) : State :=
  match getEdsCluster clusterName st with
  | None => st
  | Some c =>
      match EdsClients c !! node with
      | None => st
      | Some oldcon =>
          if bool_decide (oldcon ≠ connection) then st
          else
            let c' := set_EdsClients (delete node (EdsClients c)) c in
            let st1 := storeCluster clusterName c' st in
            if bool_decide (size (EdsClients c') = 0%nat)
            then set_edsClusters (delete clusterName (edsClusters st1)) st1
            else st1
      end
  end.

(** *** Push for one connection *)

Definition noStats : PushStats :=
  {| resAny := []; endpointsSeen := 0; emptyClusters := 0; empty := [] |}.

(** The tail of the loop body of pushEds, from the first use of [l]. *)
Definition accumulate (clusterName : string) (l : ClusterLoadAssignment)
    (acc : PushStats) : PushStats :=
  let isEmpty := bool_decide (length (Endpoints l) = 0%nat) in
  {| resAny := resAny acc ++ [l];
     endpointsSeen := endpointsSeen acc + length (Endpoints l);
     emptyClusters := if isEmpty then S (emptyClusters acc) else emptyClusters acc;
     empty := if isEmpty then empty acc ++ [clusterName] else empty acc |}.

(** The loop of pushEds over con.Clusters; [None] is the panic of
    dereferencing a nil load assignment. *)
Fixpoint pushEdsLoop (w : World) (clusterNames : list string) (st : State)
    (acc : PushStats) : option (State * PushStats) :=
  match clusterNames with
  | [] => Some (st, acc)
  | clusterName :: rest =>
      let '(c, st1) := getOrAddEdsCluster w clusterName st in
      match loadAssignment c with
      | Some l => pushEdsLoop w rest st1 (accumulate clusterName l acc)
      | None =>
          match updateCluster w clusterName c with
          | (_, Some err) => pushEdsLoop w rest st1 acc
          | (c', None) =>
              let st2 := storeCluster clusterName c' st1 in
              match loadAssignment c' with
              | Some l => pushEdsLoop w rest st2 (accumulate clusterName l acc)
              | None => None
              end
          end
      end
  end.

(** func (s *DiscoveryServer) pushEds(con *XdsConnection) error: the state
    after the call, the response handed to Send and the error returned. *)
Definition pushEds (w : World) (con : XdsConnection) (st : State)
    : option (State * DiscoveryResponse * option string) :=
  match pushEdsLoop w (Clusters con) st noStats with
  | None => None
  | Some (st', acc) =>
      let response := endpoints w (Clusters con) (resAny acc) in
      Some (st', response, Send w (stream con) response)
  end.

(** *** Global push *)

(** [edsCon.pushChannel <- ev], a send on a channel of capacity 1 outside
    any select: it returns once the event is in the buffer, and cannot
    proceed ([None]) while the buffer is full. *)
Definition chanSend (edsCon : conn_ptr) (ev : XdsEvent) (st : State) : option State :=
  match pushChannels st !! edsCon with
  | Some _ => None
  | None => Some (set_pushChannels (<[edsCon := ev]> (pushChannels st)) st)
  end.

(** [<-con.pushChannel]: ready only when an event is buffered. *)
Definition chanRecv (edsCon : conn_ptr) (st : State) : option (XdsEvent * State) :=
  match pushChannels st !! edsCon with
  | Some ev => Some (ev, set_pushChannels (delete edsCon (pushChannels st)) st)
  | None => None
  end.

(** The inner loop of edsPushAll, over the watchers of one cluster. *)
Fixpoint signalClients (clusterName : string) (clients : list (string * conn_ptr))
    (st : State) : PushAllResult :=
  match clients with
  | [] => Completed st
  | (_, edsCon) :: rest =>
      match chanSend edsCon {| clusters := [clusterName] |} st with
      | None => Blocked st clusterName edsCon
      | Some st' => signalClients clusterName rest st'
      end
  end.

(** The outer loop of edsPushAll, over the copied registry. *)
Fixpoint pushAllLoop (w : World) (tmpMap : list (string * EdsCluster)) (st : State)
    : PushAllResult :=
  match tmpMap with
  | [] => Completed st
  | (clusterName, edsCluster) :: rest =>
      match updateCluster w clusterName edsCluster with
      | (_, Some err) => pushAllLoop w rest st
      | (c', None) =>
          match signalClients clusterName (map_to_list (EdsClients c'))
                  (storeCluster clusterName c' st) with
          | Completed st' => pushAllLoop w rest st'
          | Blocked st' n p => Blocked st' n p
          end
      end
  end.

(** func edsPushAll().  Both loops range over Go maps, in an unspecified
    order; the model takes the order of [map_to_list].  The goroutine is
    followed, no other goroutine running meanwhile, up to its end or to
    the first send that cannot proceed. *)
Definition edsPushAll (w : World) (st : State) : PushAllResult :=
  pushAllLoop w (map_to_list (edsClusters st)) st.

(** *** The stream handler *)

(** Modelled from the spec: addCon is defined outside this file; it
    inserts the connection into the connection directory under its
    identity. *)
Definition addCon (conID : string) (connection : conn_ptr) (st : State) : State :=
  set_adsClients (<[conID := connection]> (adsClients st)) st.

(** Modelled from the spec: removeCon is defined outside this file; it
    removes the connection as a watcher of every cluster it watches and
    takes it out of the connection directory. *)
Definition removeCon (conID : string) (connection : conn_ptr) (c : XdsConnection)
    (st : State) : State :=
  let st1 :=
    foldl (λ s clusterName, removeEdsCon clusterName conID connection s)
          st (Clusters c) in
  set_adsClients (delete conID (adsClients st1)) st1.

Definition set_Clusters_ConID (cl : list string) (id : string) (c : XdsConnection)
    : XdsConnection :=
  {| PeerAddr := PeerAddr c; Clusters := cl; Connect := Connect c;
     ConID := id; added := added c; stream := stream c |}.

Definition set_added (b : bool) (c : XdsConnection) : XdsConnection :=
  {| PeerAddr := PeerAddr c; Clusters := Clusters c; Connect := Connect c;
     ConID := ConID c; added := b; stream := stream c |}.

(** The variables of StreamEndpoints before its loop. *)
Definition newStream (w : World) (peerAddr : string) (ptr : conn_ptr)
    (transport : nat) : StreamState :=
  {| con := {| PeerAddr := peerAddr; Clusters := []; Connect := Now w;
               ConID := ""; added := false; stream := transport |};
     conPtr := ptr;
     conID := "";
     initialRequestReceived := false;
     deferred := None |}.

(** The case [discReq, ok = <-reqChannel] of the select statement, for a
    request that was received ([ok] is true). *)
Definition receiveRequest (w : World) (discReq : DiscoveryRequest)
    (st : State) (ss : StreamState) : State * StreamState * Flow :=
  let '(conID1, st1) :=
    match Node discReq with
    | Some node =>
        if bool_decide (conID ss = "") then connectionID node st else (conID ss, st)
    | None => (conID ss, st)
    end in
  let clusters2 := ResourceNames discReq in
  let irr1 :=
    if initialRequestReceived ss
       && bool_decide (length (Clusters (con ss)) < length clusters2)%nat
    then false
    else initialRequestReceived ss in
  if irr1 && bool_decide (0 < length (Clusters (con ss)))%nat
  then
    (st1,
     {| con := con ss; conPtr := conPtr ss; conID := conID1;
        initialRequestReceived := irr1; deferred := deferred ss |},
     Continue)
  else
    let con1 := set_Clusters_ConID (ResourceNames discReq) conID1 (con ss) in
    let st2 :=
      foldl (λ s c, addEdsCon w c conID1 (conPtr ss) s) st1 (Clusters con1) in
    if added con1
    then
      (st2,
       {| con := con1; conPtr := conPtr ss; conID := conID1;
          initialRequestReceived := true; deferred := deferred ss |},
       Proceed)
    else
      (addCon conID1 (conPtr ss) st2,
       {| con := set_added true con1; conPtr := conPtr ss; conID := conID1;
          initialRequestReceived := true; deferred := Some conID1 |},
       Proceed).

(** The deferred removeCon, run when StreamEndpoints returns. *)
Definition runDeferred (ss : StreamState) (st : State) : State :=
  match deferred ss with
  | Some id => removeCon id (conPtr ss) (con ss) st
  | None => st
  end.

(** The statements after the select: the push, when the connection
    watches at least one cluster. *)
Definition afterSelect (w : World) (st : State) (ss : StreamState) : Outcome :=
  if bool_decide (0 < length (Clusters (con ss)))%nat
  then
    match pushEds w (con ss) st with
    | None => Panicked
    | Some (st', response, Some err) =>
        Returned (runDeferred ss st') (Some err) [response]
    | Some (st', response, None) => Running st' ss [response]
    end
  else Running st ss [].

(** One iteration of the loop of StreamEndpoints on one event. *)
Definition streamIteration (w : World) (ev : Event) (st : State) (ss : StreamState)
    : Outcome :=
  match ev with
  | Closed receiveError => Returned (runDeferred ss st) receiveError []
  | Request discReq =>
      match receiveRequest w discReq st ss with
      | (st', ss', Continue) => Running st' ss' []
      | (st', ss', Proceed) => afterSelect w st' ss'
      end
  | PushSignal =>
      match chanRecv (conPtr ss) st with
      | None => NotReady
      | Some (_, st') => afterSelect w st' ss
      end
  end.

(** *** Specification-level views *)

(** What the cluster named [clusterName] adds to the response of a push
    that starts in state [st]: the snapshot its entry holds; for an entry
    without snapshot (or a missing entry), the snapshot the recomputation
    installs; nothing when that recomputation fails. *)
Definition pushContribution (w : World) (st : State) (clusterName : string)
    : option ClusterLoadAssignment :=
  match edsClusters st !! clusterName ≫= LoadAssignment with
  | Some l => Some l
  | None =>
      match clusterInstances w clusterName with
      | Ok instances =>
          Some {| ClusterName := clusterName;
                  Endpoints := localityLbEndpointsFromInstances instances |}
      | Err _ => None
      end
  end.
(** *** Runs *)

(** A run of recomputations of one cluster, each in the world and under
    the name it is called with. *)
Definition recomputations (steps : list (World * string)) (c : EdsCluster)
    : EdsCluster :=
  foldl (λ c step, (updateCluster step.1 step.2 c).1) c steps.

(** A run of calls of connectionID, in the order in which they take the
    lock. *)
Fixpoint connectionIDs (nodes : list string) (st : State) : list string * State :=
  match nodes with
  | [] => ([], st)
  | node :: rest =>
      let '(id, st1) := connectionID node st in
      let '(ids, st2) := connectionIDs rest st1 in
      (id :: ids, st2)
  end.

End Eds.

(** ** The remaining entry points *)

(** func (s *DiscoveryServer) FetchEndpoints(ctx, req): the state after the
    call and the result. *)
Definition FetchEndpoints (req : DiscoveryRequest) (st : State)
    : State * result DiscoveryResponse :=
  (st, Err "not implemented").

(** func (s *DiscoveryServer) StreamLoadStats(stream): the state after the
    call and the error returned. *)
Definition StreamLoadStats (st : State) : State * option string :=
  (st, Some "unsupported streaming method").

(** The errors of stream.Recv, as the reader goroutine of StreamEndpoints
    tells them apart. *)
Inductive RecvError : Type :=
| RecvEOF
| RecvCanceled
| RecvFailed (err : string).

(** The reader goroutine on an error of stream.Recv: it closes reqChannel,
    and sets receiveError unless the stream ended or was cancelled. *)
Definition readerClose (err : RecvError) : Event :=
  match err with
  | RecvEOF | RecvCanceled => Closed None
  | RecvFailed e => Closed (Some e)
  end.

(** ** Views used by the statements *)

Section Views.

Context {collaborators : Collaborators}.

(** The state after one iteration of the loop of pushEds, for the cluster
    [clusterName]. *)
Definition pushStepState (w : World) (clusterName : string) (st : State) : State :=
  let '(c, st1) := getOrAddEdsCluster w clusterName st in
  match loadAssignment c with
  | Some _ => st1
  | None =>
      match updateCluster w clusterName c with
      | (_, Some _) => st1
      | (c', None) => storeCluster clusterName c' st1
      end
  end.

(** The snapshot the cluster named [clusterName] holds, if any. *)
Definition snapshot (st : State) (clusterName : string) : option ClusterLoadAssignment :=
  edsClusters st !! clusterName ≫= LoadAssignment.

(** The outcomes of a call of updateCluster: the cluster after the call and
    the error returned.  The groups of the installed snapshot come out of
    a range over localityEpMap, in an order that Go leaves unspecified and
    that varies from one call to the next: the snapshot may list the
    groups in every order. *)
Inductive updateClusterOutcome (w : World) (clusterName : string)
    (edsCluster : EdsCluster) : EdsCluster → option string → Prop :=
| outcome_error (err : string) :
    clusterInstances w clusterName = Err err →
    updateClusterOutcome w clusterName edsCluster edsCluster (Some err)
| outcome_groups (instances : list ServiceInstance)
      (locEps : list LocalityLbEndpoints) :
    clusterInstances w clusterName = Ok instances →
    locEps ≡ₚ localityLbEndpointsFromInstances instances →
    updateClusterOutcome w clusterName edsCluster
      (let c1 :=
         set_LoadAssignment
           (Some {| ClusterName := clusterName; Endpoints := locEps |}) edsCluster in
       if bool_decide (0 < length locEps)%nat && IsZero (NonEmptyTime c1)
       then set_NonEmptyTime (Now w) c1
       else c1)
      None.

(** Two snapshots with the same content: both nil, or of the same cluster
    with the same groups, in any order. *)
Definition sameSnapshot (l l' : option ClusterLoadAssignment) : Prop :=
  match l, l' with
  | None, None => True
  | Some a, Some b => ClusterName a = ClusterName b ∧ Endpoints a ≡ₚ Endpoints b
  | _, _ => False
  end.

End Views.

Section BroadcastViews.

Context {collaborators : Collaborators}.

(** The connections edsPushAll sends an event to, in the order of the
    sends, when it ranges over the entries [tmpMap] and every send
    proceeds: the watchers of the entries whose recomputation succeeds. *)
Definition signalled (w : World) (tmpMap : list (string * EdsCluster)) : list conn_ptr :=
  flat_map (λ entry,
              if is_ok (clusterInstances w entry.1)
              then (map_to_list (EdsClients entry.2)).*2
              else []) tmpMap.

End BroadcastViews.

Section StreamViews.

Context {collaborators : Collaborators}.

(** The connection of the stream is registered, under the identity it
    carries, as a watcher of every cluster of its watched list. *)
Definition watchesAll (st : State) (ss : StreamState) : Prop :=
  Forall (λ clusterName, watches st clusterName (ConID (con ss)) (conPtr ss))
         (Clusters (con ss)).

(** The variables of StreamEndpoints move together: before the first
    request nothing is recorded; from the first request on, the request
    flag is set, the connection is in the directory and the removal is
    deferred. *)
Definition streamInvariant (ss : StreamState) : Prop :=
  (initialRequestReceived ss = false
   ∧ added (con ss) = false ∧ deferred ss = None
   ∧ Clusters (con ss) = [] ∧ conID ss = "" ∧ ConID (con ss) = "")
  ∨ (initialRequestReceived ss = true
     ∧ added (con ss) = true ∧ is_Some (deferred ss)).

(** The responses an iteration hands to stream.Send. *)
Definition sendsOf (o : Outcome) : list DiscoveryResponse :=
  match o with
  | Running _ _ sends | Returned _ _ sends => sends
  | Panicked | NotReady => []
  end.

(** What the registration of the watcher [connection] under [node] keeps
    of an entry [c] that exists, [c'] being the entry afterwards: the
    snapshot, the timestamps, and every watcher but one registered under
    the same node for another connection. *)
Definition entryKept (node : string) (connection : conn_ptr) (c c' : EdsCluster) : Prop :=
  LoadAssignment c' = LoadAssignment c
  ∧ FirstUse c' = FirstUse c
  ∧ NonEmptyTime c' = NonEmptyTime c
  ∧ ∀ node' p', EdsClients c !! node' = Some p' →
      node' ≠ node ∨ p' = connection → EdsClients c' !! node' = Some p'.

End StreamViews.

(** ** A sample environment

    A small instance of the collaborators, used to run the model on
    concrete inputs.  On the strings below it answers as the real
    collaborators do: the listed literals are IP addresses, an address that
    is no IP literal does not parse, and a service key without separators
    names the host itself, with no port and no label. *)

Definition sampleParseIP (address : string) : option (list Z) :=
  if decide (address = "10.0.0.1") then Some [10; 0; 0; 1]
  else if decide (address = "10.0.0.2") then Some [10; 0; 0; 2]
  else if decide (address = "10.0.0.3") then Some [10; 0; 0; 3]
  else if decide (address = "::1")
       then Some [0; 0; 0; 0; 0; 0; 0; 0; 0; 0; 0; 0; 0; 0; 0; 1]
  else None.

(** IP.To4: a 4-byte address, or the last four bytes of an IPv4-mapped
    16-byte address. *)
Definition sampleTo4 (ip : list Z) : option (list Z) :=
  if decide (length ip = 4%nat) then Some ip
  else if decide (length ip = 16%nat
                  ∧ take 12 ip = [0; 0; 0; 0; 0; 0; 0; 0; 0; 0; 255; 255])
       then Some (drop 12 ip)
  else None.

Definition sampleInstance (address : string) (port : Z) (zone : string)
    : ServiceInstance :=
  {| Endpoint_Address := address; Endpoint_Port := port; AvailabilityZone := zone |}.

(** The registry of the sample: svc-a has two instances in zone z1 and one
    in zone z2, svc-b one instance, svc-bad one instance whose address is
    no IP literal, the lookup of svc-down fails, any other host has no
    instance. *)
Definition sampleInstances (hostname : string) : result (list ServiceInstance) :=
  if decide (hostname = "svc-a") then
    Ok [sampleInstance "10.0.0.1" 80 "z1"; sampleInstance "10.0.0.2" 80 "z1";
        sampleInstance "10.0.0.3" 80 "z2"]
  else if decide (hostname = "svc-b") then Ok [sampleInstance "10.0.0.3" 8080 ""]
  else if decide (hostname = "svc-bad") then Ok [sampleInstance "not-an-ip" 80 "z1"]
  else if decide (hostname = "svc-down") then Err "registry unavailable"
  else Ok [].

(** The world of the sample is the reading of the clock. *)
#[export] Instance sampleCollaborators : Collaborators := {|
  IP := list Z;
  ParseIP := sampleParseIP;
  To4 := sampleTo4;
  World := Time;
  Now := λ w, w;
  LabelsCollection := unit;
  Instances := λ _ hostname _ _, sampleInstances hostname;
  SubsetToLabels := λ _ _ _, tt;
  ParseSubsetKey := λ clusterName, ("outbound", "", clusterName, {| Name := ""; PortNumber := 0 |});
  ParseServiceKey := λ clusterName, (clusterName, [], tt);
  EndpointType := "type.googleapis.com/envoy.api.v2.ClusterLoadAssignment";
  versionInfo := λ w, pretty w;
  nonce := λ w, pretty w;
  Send := λ _ _ _, None
|}.

(** A connection of the sample, watching the clusters [watched]. *)
Definition sampleConnection (watched : list string) : XdsConnection :=
  {| PeerAddr := "10.1.1.1:5000"; Clusters := watched; Connect := 900;
     ConID := "sidecar-1"; added := true; stream := 0 |}.

(** A cluster as getOrAddEdsCluster creates it. *)
Definition freshCluster : EdsCluster :=
  {| LoadAssignment := None; FirstUse := 900; EdsClients := ∅; NonEmptyTime := 0 |}.

(** The first request of a sidecar that watches svc-a, and the package and
    the stream after StreamEndpoints has handled it on a new stream. *)
Definition sampleFirstRequest : DiscoveryRequest :=
  {| Node := Some "sidecar"; ResourceNames := ["svc-a"];
     VersionInfo := ""; ErrorDetail := None |}.

Definition sampleAfterFirst : State * StreamState * Flow :=
  receiveRequest (collaborators := sampleCollaborators) 1000 sampleFirstRequest
    initialState (newStream (collaborators := sampleCollaborators) 1000
                            "10.1.1.1:5000" 7%nat 0%nat).

Definition sampleEstablishedState : State := sampleAfterFirst.1.1.

Definition sampleEstablishedStream : StreamState := sampleAfterFirst.1.2.

(** A later request of the same sidecar for svc-a and svc-b, and an
    acknowledgment that names svc-a only. *)
Definition sampleSupersetRequest : DiscoveryRequest :=
  {| Node := Some "sidecar"; ResourceNames := ["svc-a"; "svc-b"];
     VersionInfo := "v1"; ErrorDetail := None |}.

Definition sampleAcknowledgment : DiscoveryRequest :=
  {| Node := Some "sidecar"; ResourceNames := ["svc-a"];
     VersionInfo := "v1"; ErrorDetail := None |}.


(** The package after a global push at time 2000 that finds the sidecar of
    the sample watching svc-a with an empty push channel. *)
Definition sampleAfterGlobalPush : State :=
  match edsPushAll (collaborators := sampleCollaborators) 2000 sampleEstablishedState with
  | Completed st' => st'
  | Blocked st' _ _ => st'
  end.

(** * Properties *)

(** ** Endpoint builder *)

Section BuilderProperties.

Context {collaborators : Collaborators}.

(** C7. The endpoint builder succeeds exactly when the address parses as
    an IP literal.  On success the endpoint carries the address and the
    port it was given, and its IPv4-compatibility flag is true exactly
    when the parsed address has a 4-byte form.  On failure it returns the
    invalid-address error; being a function of its two arguments, it has
    no effect on any state. *)
Theorem newEndpoint_spec (address : string) (port : Z) :
  (is_ok (newEndpoint address port) = true ↔ is_Some (ParseIP address))
  ∧ (∀ ipAddr, ParseIP address = Some ipAddr →
       ∃ ep, newEndpoint address port = Ok ep
             ∧ Address ep = address
             ∧ PortValue ep = port
             ∧ (Ipv4Compat ep = true ↔ is_Some (To4 ipAddr)))
  ∧ (ParseIP address = None →
       newEndpoint address port = Err ("Invalid IP address " +:+ address)).
Proof.
  unfold newEndpoint. split; [|split].
  - destruct (ParseIP address) as [ip|]; simpl.
    + split; [eauto | done].
    + split; [done | by intros [? ?]].
  - intros ip ->. eexists. split; [done|]. simpl.
    repeat split; auto.
    + intros Hb. by apply bool_decide_eq_true in Hb.
    + intros Hs. by apply bool_decide_eq_true.
  - by intros ->.
Qed.

End BuilderProperties.

(** The builder on an IPv4 literal of the sample. *)
Lemma newEndpoint_spec_witness :
  ∃ ep, newEndpoint "10.0.0.1" 80 = Ok ep
        ∧ Address ep = "10.0.0.1"
        ∧ PortValue ep = 80
        ∧ (Ipv4Compat ep = true ↔ is_Some (sampleTo4 [10; 0; 0; 1])).
Proof.
  destruct (newEndpoint_spec (collaborators := sampleCollaborators) "10.0.0.1" 80)
    as (_ & Hok & _).
  apply (Hok [10; 0; 0; 1]). reflexivity.
Defined.

(** ** Locality grouper *)

Section GrouperProperties.

Context {collaborators : Collaborators}.

Lemma localityEpMapOf_snoc (instances : list ServiceInstance) instance :
  localityEpMapOf (instances ++ [instance])
  = localityStep (localityEpMapOf instances) instance.
Proof. unfold localityEpMapOf. by rewrite foldl_app. Qed.

Lemma zoneEndpoints_snoc z (instances : list ServiceInstance) instance :
  zoneEndpoints z (instances ++ [instance])
  = zoneEndpoints z instances ++ zoneEndpoints z [instance].
Proof. unfold zoneEndpoints. by rewrite omap_app. Qed.

Lemma zoneEndpoints_singleton z instance :
  zoneEndpoints z [instance]
  = if decide (AvailabilityZone instance = z)
    then match newEndpoint (Endpoint_Address instance)
                 (uint32 (Endpoint_Port instance)) with
         | Ok ep => [ep]
         | Err _ => []
         end
    else [].
Proof.
  unfold zoneEndpoints. simpl. case_decide; [|done].
  by destruct (newEndpoint _ _).
Qed.

Lemma groupOf_snoc z eps ep :
  groupOf z (eps ++ [ep]) = Some {| Zone := z; LbEndpoints := eps ++ [ep] |}.
Proof. unfold groupOf. by destruct eps. Qed.

(** The map built by the loop: at each zone, the endpoints of the valid
    instances of that zone, in discovery order, and no binding for a zone
    without a valid instance. *)
Lemma localityEpMapOf_lookup (instances : list ServiceInstance) z :
  localityEpMapOf instances !! z = groupOf z (zoneEndpoints z instances).
Proof.
  induction instances as [|instance instances IH] using rev_ind.
  { done. }
  rewrite localityEpMapOf_snoc, zoneEndpoints_snoc, zoneEndpoints_singleton.
  unfold localityStep.
  destruct (newEndpoint _ _) as [lbEp|e] eqn:Hep; simpl.
  - destruct (decide (AvailabilityZone instance = z)) as [->|Hne].
    + rewrite lookup_insert_eq, IH, groupOf_snoc. f_equal.
      unfold groupOf. by destruct (zoneEndpoints _ _).
    + rewrite lookup_insert_ne by done. by rewrite IH, app_nil_r.
  - rewrite IH. case_decide; by rewrite app_nil_r.
Qed.

Lemma zoneEndpoints_nonempty z (instances : list ServiceInstance) :
  zoneEndpoints z instances ≠ []
  ↔ z ∈ AvailabilityZone <$> filter validAddress instances.
Proof.
  rewrite list_elem_of_fmap. split.
  - intros Hne. destruct (zoneEndpoints z instances) as [|ep eps] eqn:Heq; [done|].
    assert (ep ∈ zoneEndpoints z instances) as Hin by (rewrite Heq; left).
    apply list_elem_of_omap in Hin as (instance & Hin & Hf).
    case_decide as Hz; [|done].
    exists instance. split; [done|].
    apply list_elem_of_filter. split; [|done].
    unfold validAddress. unfold newEndpoint in Hf.
    destruct (ParseIP _); [eauto | done].
  - intros (instance & -> & Hin).
    apply list_elem_of_filter in Hin as [[ip Hip] Hin].
    intros Hnil.
    assert (∃ ep, ep ∈ zoneEndpoints (AvailabilityZone instance) instances)
      as [ep Hep]; [|rewrite Hnil in Hep; by apply elem_of_nil in Hep].
    eexists. apply list_elem_of_omap. exists instance. split; [done|].
    rewrite decide_True by done. unfold newEndpoint. rewrite Hip. done.
Qed.

Lemma localityEpMapOf_zone (instances : list ServiceInstance) z g :
  localityEpMapOf instances !! z = Some g →
  Zone g = z ∧ LbEndpoints g = zoneEndpoints z instances.
Proof.
  rewrite localityEpMapOf_lookup. unfold groupOf.
  destruct (zoneEndpoints z instances); [done|]. by intros [= <-].
Qed.

Lemma groups_zones (instances : list ServiceInstance) :
  Zone <$> localityLbEndpointsFromInstances instances
  = (map_to_list (localityEpMapOf instances)).*1.
Proof.
  unfold localityLbEndpointsFromInstances.
  rewrite <-list_fmap_compose.
  apply Forall_fmap_ext_1, Forall_forall. intros [z g] Hin. simpl.
  apply elem_of_map_to_list in Hin.
  by apply localityEpMapOf_zone in Hin as [-> _].
Qed.

Lemma mapTotal_insert_fresh m z g :
  m !! z = None → mapTotal (<[z := g]> m) = (length (LbEndpoints g) + mapTotal m)%nat.
Proof.
  intros Hz. unfold mapTotal, totalEndpoints.
  by rewrite (map_to_list_insert m z g Hz).
Qed.

Lemma mapTotal_insert m z g :
  mapTotal (<[z := g]> m)
  = (length (LbEndpoints g) + mapTotal (delete z m))%nat.
Proof.
  rewrite <-insert_delete_eq. apply mapTotal_insert_fresh. apply lookup_delete_eq.
Qed.

Lemma mapTotal_lookup m z g :
  m !! z = Some g → mapTotal m = (length (LbEndpoints g) + mapTotal (delete z m))%nat.
Proof.
  intros Hz. rewrite <-(insert_delete_id m z g Hz) at 1.
  apply mapTotal_insert_fresh. apply lookup_delete_eq.
Qed.

Lemma mapTotal_localityEpMapOf (instances : list ServiceInstance) :
  mapTotal (localityEpMapOf instances) = length (filter validAddress instances).
Proof.
  induction instances as [|instance instances IH] using rev_ind.
  { done. }
  rewrite localityEpMapOf_snoc, filter_app, length_app, <-IH.
  unfold localityStep, newEndpoint.
  destruct (decide (validAddress instance)) as [Hv|Hv].
  - rewrite (filter_cons_True _ _ _ Hv), filter_nil.
    destruct Hv as [ip Hip]. rewrite Hip. simpl.
    rewrite mapTotal_insert. simpl. rewrite length_app. simpl.
    destruct (localityEpMapOf instances !! AvailabilityZone instance) as [g|] eqn:Hz.
    + rewrite (mapTotal_lookup _ _ _ Hz). lia.
    + rewrite delete_id by done. simpl. lia.
  - rewrite (filter_cons_False _ _ _ Hv), filter_nil.
    destruct (ParseIP (Endpoint_Address instance)) as [ip|] eqn:Hip.
    { destruct Hv. unfold validAddress. rewrite Hip. eauto. }
    simpl. lia.
Qed.

(** C6 (amended). For every list of service instances, the locality
    grouper produces exactly one group per distinct availability-zone
    value among the instances whose address parses as an IP (the empty
    zone counting as one value); the number of endpoints over all groups
    is the number of instances whose address parses; and each group
    holds, in discovery order, the endpoints of the valid instances of
    its zone.  An instance whose address does not parse is skipped, and
    contributes neither an endpoint nor a group. *)
Theorem localityLbEndpointsFromInstances_spec (instances : list ServiceInstance) :
  let groups := localityLbEndpointsFromInstances instances in
  Zone <$> groups ≡ₚ remove_dups (AvailabilityZone <$> filter validAddress instances)
  ∧ totalEndpoints groups = length (filter validAddress instances)
  ∧ Forall (λ g, LbEndpoints g = zoneEndpoints (Zone g) instances) groups.
Proof.
  simpl. split; [|split].
  - rewrite groups_zones. apply NoDup_Permutation.
    + apply NoDup_fst_map_to_list.
    + apply NoDup_remove_dups.
    + intros z. rewrite elem_of_remove_dups, <-zoneEndpoints_nonempty.
      rewrite list_elem_of_fmap. split.
      * intros ([z' g] & -> & Hin). apply elem_of_map_to_list in Hin. simpl.
        rewrite localityEpMapOf_lookup in Hin. unfold groupOf in Hin.
        by destruct (zoneEndpoints z' instances).
      * intros Hne.
        destruct (localityEpMapOf instances !! z) as [g|] eqn:Hz.
        -- exists (z, g). split; [done|]. by apply elem_of_map_to_list.
        -- rewrite localityEpMapOf_lookup in Hz. unfold groupOf in Hz.
           by destruct (zoneEndpoints z instances).
  - apply mapTotal_localityEpMapOf.
  - apply Forall_forall. intros g Hin.
    unfold localityLbEndpointsFromInstances in Hin.
    apply list_elem_of_fmap in Hin as ([z g'] & -> & Hin).
    apply elem_of_map_to_list in Hin. simpl.
    by apply localityEpMapOf_zone in Hin as [-> ->].
Qed.

End GrouperProperties.

(** C6, as stated, fails: the only instance of zone z1 has an address that
    is no IP literal, so the zone is observed among the instances and yet
    no group is produced for it. *)
Lemma localityLbEndpointsFromInstances_counterexample :
  let instances := [sampleInstance "not-an-ip" 80 "z1"] in
  localityLbEndpointsFromInstances instances = []
  ∧ remove_dups (AvailabilityZone <$> instances) = ["z1"]
  ∧ ¬ (Zone <$> localityLbEndpointsFromInstances instances
       ≡ₚ remove_dups (AvailabilityZone <$> instances)).
Proof.
  simpl. split; [by vm_compute|]. split; [by vm_compute|].
  intros Hperm. apply Permutation_length in Hperm. by vm_compute in Hperm.
Qed.

(** ** Cluster cache *)

Section CacheProperties.

Context {collaborators : Collaborators}.

Lemma updateCluster_error w clusterName c err :
  clusterInstances w clusterName = Err err →
  updateCluster w clusterName c = (c, Some err).
Proof. unfold updateCluster. by intros ->. Qed.

Lemma updateCluster_ok w clusterName c instances :
  clusterInstances w clusterName = Ok instances →
  let groups := localityLbEndpointsFromInstances instances in
  updateCluster w clusterName c
  = ({| LoadAssignment := Some {| ClusterName := clusterName; Endpoints := groups |};
        FirstUse := FirstUse c;
        EdsClients := EdsClients c;
        NonEmptyTime :=
          if bool_decide (groups ≠ []) && IsZero (NonEmptyTime c)
          then Now w else NonEmptyTime c |}, None).
Proof.
  unfold updateCluster. intros ->. cbv zeta.
  assert (bool_decide (0 < length (localityLbEndpointsFromInstances instances))%nat
          = bool_decide (localityLbEndpointsFromInstances instances ≠ [])) as ->.
  { apply bool_decide_ext.
    destruct (localityLbEndpointsFromInstances instances); simpl; [|split; [done|lia]].
    split; [lia|done]. }
  simpl. by destruct (bool_decide _ && IsZero _).
Qed.

Lemma updateCluster_keeps_set_time w clusterName c :
  IsZero (NonEmptyTime c) = false →
  NonEmptyTime (updateCluster w clusterName c).1 = NonEmptyTime c.
Proof.
  intros Hset. destruct (clusterInstances w clusterName) as [instances|err] eqn:Hi.
  - rewrite (updateCluster_ok _ _ _ _ Hi). simpl. rewrite Hset.
    by rewrite andb_false_r.
  - by rewrite (updateCluster_error _ _ _ _ Hi).
Qed.

Lemma recomputations_keep_set_time steps c :
  IsZero (NonEmptyTime c) = false →
  NonEmptyTime (recomputations steps c) = NonEmptyTime c.
Proof.
  revert c. induction steps as [|[w n] steps IH]; intros c Hset; [done|].
  unfold recomputations in *. simpl. rewrite IH.
  - by apply updateCluster_keeps_set_time.
  - by rewrite updateCluster_keeps_set_time.
Qed.

(** C8. A successful recomputation sets the first-non-empty timestamp, to
    the current time, exactly when the computed group list is non-empty
    and the timestamp was unset, and leaves it as it was otherwise; with
    zero instances there are zero groups and the timestamp stays as it
    was (unset, if it was unset); and once it is set, no later
    recomputation changes it. *)
Theorem updateCluster_NonEmptyTime w clusterName c instances :
  clusterInstances w clusterName = Ok instances →
  let groups := localityLbEndpointsFromInstances instances in
  let c' := (updateCluster w clusterName c).1 in
  (updateCluster w clusterName c).2 = None
  ∧ NonEmptyTime c'
    = (if bool_decide (groups ≠ []) && IsZero (NonEmptyTime c)
       then Now w else NonEmptyTime c)
  ∧ (instances = [] → groups = [] ∧ NonEmptyTime c' = NonEmptyTime c)
  ∧ (∀ steps, IsZero (NonEmptyTime c') = false →
       NonEmptyTime (recomputations steps c') = NonEmptyTime c').
Proof.
  intros Hi groups c'.
  assert (NonEmptyTime c'
          = (if bool_decide (groups ≠ []) && IsZero (NonEmptyTime c)
             then Now w else NonEmptyTime c)) as Htime.
  { subst c' groups. by rewrite (updateCluster_ok _ _ _ _ Hi). }
  split; [by rewrite (updateCluster_ok _ _ _ _ Hi)|].
  split; [done|]. split.
  - intros ->. assert (groups = []) as Hg.
    { subst groups. unfold localityLbEndpointsFromInstances, localityEpMapOf.
      simpl. by rewrite map_to_list_empty. }
    split; [done|]. rewrite Htime, Hg.
    by rewrite bool_decide_eq_false_2 by (intros Hne; by apply Hne).
  - intros steps. apply recomputations_keep_set_time.
Qed.

(** C5. When the connection is registered as a watcher of a cache entry,
    removing it removes the entry from the registry if the watcher set
    becomes empty, and keeps the entry, with the remaining watchers, if
    at least one watcher remains; other entries are not touched. *)
Theorem removeEdsCon_prunes clusterName node connection st c :
  edsClusters st !! clusterName = Some c →
  EdsClients c !! node = Some connection →
  let remaining := delete node (EdsClients c) in
  let st' := removeEdsCon clusterName node connection st in
  (remaining = ∅ → edsClusters st' !! clusterName = None)
  ∧ (remaining ≠ ∅ →
       edsClusters st' !! clusterName = Some (set_EdsClients remaining c))
  ∧ (∀ other, other ≠ clusterName →
       edsClusters st' !! other = edsClusters st !! other).
Proof.
  intros Hc Hnode. simpl. unfold removeEdsCon, getEdsCluster.
  rewrite Hc, Hnode. rewrite bool_decide_eq_false_2 by (intros ?; done).
  simpl. split; [|split].
  - intros Hempty. rewrite Hempty, map_size_empty.
    rewrite bool_decide_eq_true_2 by done. simpl. apply lookup_delete_eq.
  - intros Hne. rewrite bool_decide_eq_false_2.
    + simpl. apply lookup_insert_eq.
    + intros Hsize. by apply map_size_empty_iff in Hsize.
  - intros other Hother. case_bool_decide; simpl.
    + rewrite lookup_delete_ne by done. by rewrite lookup_insert_ne.
    + by rewrite lookup_insert_ne.
Qed.
End CacheProperties.

(** The first recomputation of svc-a, at time 1000, on a cluster whose
    timestamp is unset. *)
Lemma updateCluster_NonEmptyTime_witness :
  (updateCluster (collaborators := sampleCollaborators) 1000 "svc-a" freshCluster).2
  = None
  ∧ NonEmptyTime
      (updateCluster (collaborators := sampleCollaborators) 1000 "svc-a" freshCluster).1
    = 1000.
Proof.
  destruct (updateCluster_NonEmptyTime (collaborators := sampleCollaborators)
              1000 "svc-a" freshCluster
              [sampleInstance "10.0.0.1" 80 "z1"; sampleInstance "10.0.0.2" 80 "z1";
               sampleInstance "10.0.0.3" 80 "z2"])
    as (Herr & Htime & _).
  - vm_compute. reflexivity.
  - split; [exact Herr|]. rewrite Htime. vm_compute. reflexivity.
Defined.

(** The sidecar of the sample, the only watcher of svc-a, is removed. *)
Lemma removeEdsCon_prunes_witness :
  edsClusters (removeEdsCon "svc-a" "sidecar-1" 7%nat sampleEstablishedState) !! "svc-a"
  = None.
Proof.
  destruct (removeEdsCon_prunes "svc-a" "sidecar-1" 7%nat sampleEstablishedState
              {| LoadAssignment := None; FirstUse := 1000;
                 EdsClients := {[ "sidecar-1" := 7%nat ]}; NonEmptyTime := 0 |})
    as (Hempty & _ & _).
  - vm_compute. reflexivity.
  - vm_compute. reflexivity.
  - apply Hempty. apply delete_singleton_eq.
Defined.

(** ** Connection identities *)

Section IdentityProperties.

Lemma int64_small z : - 2 ^ 63 ≤ z < 2 ^ 63 → int64 z = z.
Proof. intros Hz. unfold int64. rewrite Z.mod_small; lia. Qed.

Lemma noDash_pretty_N_go x s : noDash s → noDash (pretty_N_go x s).
Proof.
  revert s. induction (N.lt_wf_0 x) as [x _ IH]; intros s Hs.
  assert (x = 0 ∨ 0 < x)%N as [->|Hpos] by lia.
  - by rewrite pretty_N_go_0.
  - rewrite pretty_N_go_step by done. apply IH.
    + by apply N.div_lt.
    + split; [|done]. unfold pretty_N_char. by repeat case_match.
Qed.

Lemma noDash_Itoa z : 0 ≤ z → noDash (Itoa z).
Proof.
  intros Hz. unfold Itoa, pretty, pretty_Z. destruct z as [|p|p]; [done| |lia].
  unfold pretty, pretty_positive, pretty, pretty_N.
  rewrite decide_False by done. by apply noDash_pretty_N_go.
Qed.

Lemma append_nil_l s : "" +:+ s = s.
Proof. done. Qed.

Lemma append_cons a s t : String a s +:+ t = String a (s +:+ t).
Proof. done. Qed.

(** The counter is read back from an identity: the digits after the last
    dash. *)
Lemma dash_separator_inj n1 n2 s1 s2 :
  noDash s1 → noDash s2 →
  n1 +:+ String "-" s1 = n2 +:+ String "-" s2 → n1 = n2 ∧ s1 = s2.
Proof.
  intros H1 H2. revert n2.
  induction n1 as [|a n1 IH]; intros [|b n2]; rewrite ?append_nil_l, ?append_cons.
  - by intros [= ->].
  - intros [= <- ->]. exfalso. clear -H1. induction n2 as [|c n2 IH].
    + rewrite append_nil_l in H1. by destruct H1.
    + rewrite append_cons in H1. destruct H1 as [_ H1]. by apply IH.
  - intros [= -> <-]. exfalso. clear -H2. induction n1 as [|c n1 IH].
    + rewrite append_nil_l in H2. by destruct H2.
    + rewrite append_cons in H2. destruct H2 as [_ H2]. by apply IH.
  - intros [= -> Heq]. apply IH in Heq as [-> ->]. done.
Qed.

Lemma identity_inj node1 node2 k1 k2 :
  0 ≤ k1 → 0 ≤ k2 →
  node1 +:+ "-" +:+ Itoa k1 = node2 +:+ "-" +:+ Itoa k2 →
  node1 = node2 ∧ k1 = k2.
Proof.
  intros H1 H2 Heq.
  apply dash_separator_inj in Heq as [-> Hk]; [|by apply noDash_Itoa..].
  split; [done|]. by apply (inj pretty) in Hk.
Qed.

(** The identities of a run embed the counter values that follow the
    one the run starts from. *)
Lemma connectionIDs_range nodes st id :
  0 ≤ connectionNumber st →
  connectionNumber st + Z.of_nat (length nodes) < 2 ^ 63 →
  id ∈ (connectionIDs nodes st).1 →
  ∃ node k, id = node +:+ "-" +:+ Itoa k
            ∧ connectionNumber st < k ≤ connectionNumber st + Z.of_nat (length nodes).
Proof.
  revert st. induction nodes as [|node nodes IH]; intros st Hlo Hhi Hin.
  { by apply elem_of_nil in Hin. }
  rewrite length_cons, Nat2Z.inj_succ in *.
  simpl in Hin. destruct (connectionIDs nodes _) as [ids st2] eqn:Hrun.
  simpl in Hin.
  assert (int64 (connectionNumber st + 1) = connectionNumber st + 1) as Hc
    by (apply int64_small; lia).
  apply elem_of_cons in Hin as [->|Hin].
  - exists node, (connectionNumber st + 1). rewrite Hc. split; [done|lia].
  - specialize (IH (set_connectionNumber (int64 (connectionNumber st + 1)) st)).
    rewrite Hrun in IH. simpl in IH. rewrite Hc in IH.
    destruct IH as (node' & k & -> & Hk); [lia|lia|done|].
    exists node', k. split; [done|lia].
Qed.

(** C9. In a run of calls of the connection-identity generator that
    starts from a counter that is not negative and stays below the
    largest 64-bit integer (the counter starts at 0 and is incremented by
    one under the lock at each call), the identities returned are
    pairwise distinct, whatever the node identifiers, equal or not:
    each identity embeds the fresh value of the counter. *)
Theorem connectionID_unique nodes st :
  0 ≤ connectionNumber st →
  connectionNumber st + Z.of_nat (length nodes) < 2 ^ 63 →
  NoDup (connectionIDs nodes st).1.
Proof.
  revert st. induction nodes as [|node nodes IH]; intros st Hlo Hhi.
  { constructor. }
  rewrite length_cons, Nat2Z.inj_succ in Hhi.
  simpl. destruct (connectionIDs nodes _) as [ids st2] eqn:Hrun. simpl.
  assert (int64 (connectionNumber st + 1) = connectionNumber st + 1) as Hc
    by (apply int64_small; lia).
  pose proof (IH (set_connectionNumber (int64 (connectionNumber st + 1)) st)) as Hnd.
  pose proof (connectionIDs_range nodes
                (set_connectionNumber (int64 (connectionNumber st + 1)) st)) as Hrange.
  rewrite Hrun in Hnd, Hrange. simpl in Hnd, Hrange. rewrite Hc in Hnd, Hrange.
  constructor.
  - intros Hin. apply Hrange in Hin as (node' & k & Heq & Hk); [|lia..].
    rewrite Hc in Heq. apply identity_inj in Heq as [_ Heq]; lia.
  - apply Hnd; lia.
Qed.

End IdentityProperties.

(** Four connections, three of them from the same node, since the start
    of the process. *)
Lemma connectionID_unique_witness :
  NoDup (connectionIDs ["sidecar"; "sidecar"; "router"; "sidecar"] initialState).1.
Proof.
  apply connectionID_unique.
  - vm_compute. discriminate.
  - vm_compute. reflexivity.
Defined.

(** ** Push for one connection *)

Section PushProperties.

Context {collaborators : Collaborators}.

Lemma omap_pointwise {A B} (f g : A → option B) (l : list A) :
  (∀ x, f x = g x) → omap f l = omap g l.
Proof. intros Hfg. induction l as [|x l IH]; csimpl; [done|]. by rewrite Hfg, IH. Qed.

Lemma updateCluster_installs w clusterName c c' :
  updateCluster w clusterName c = (c', None) → is_Some (loadAssignment c').
Proof.
  unfold updateCluster.
  destruct (clusterInstances w clusterName); [|done].
  cbv zeta. case_match; intros [= <-]; simpl; eauto.
Qed.

Lemma pushContribution_store w st clusterName c l other :
  LoadAssignment c = Some l →
  pushContribution w st clusterName = Some l →
  pushContribution w (storeCluster clusterName c st) other
  = pushContribution w st other.
Proof.
  intros Hl Hc. unfold pushContribution at 1. simpl.
  destruct (decide (clusterName = other)) as [<-|Hne].
  - rewrite lookup_insert_eq. simpl. by rewrite Hl, Hc.
  - by rewrite lookup_insert_ne.
Qed.

Lemma pushContribution_fresh w st clusterName c other :
  edsClusters st !! clusterName = None →
  LoadAssignment c = None →
  pushContribution w (set_edsClusters (<[clusterName := c]> (edsClusters st)) st) other
  = pushContribution w st other.
Proof.
  intros Hnone Hl. unfold pushContribution. simpl.
  destruct (decide (clusterName = other)) as [<-|Hne].
  - rewrite lookup_insert_eq, Hnone. simpl. by rewrite Hl.
  - by rewrite lookup_insert_ne.
Qed.

(** The loop of pushEds never dereferences nil; it appends the
    contributions of the clusters, in order; and the entries whose
    recomputation fails are left as they were. *)
Lemma pushEdsLoop_spec w clusterNames st acc :
  ∃ st' acc',
    pushEdsLoop w clusterNames st acc = Some (st', acc')
    ∧ resAny acc' = resAny acc ++ omap (pushContribution w st) clusterNames
    ∧ (∀ other, pushContribution w st' other = pushContribution w st other)
    ∧ (∀ n c, edsClusters st !! n = Some c → pushContribution w st n = None →
         edsClusters st' !! n = Some c).
Proof.
  revert st acc.
  induction clusterNames as [|clusterName rest IH]; intros st acc.
  { exists st, acc. simpl. by rewrite app_nil_r. }
  assert (∀ st1 acc1 l,
    pushContribution w st clusterName = Some l →
    resAny acc1 = resAny acc ++ [l] →
    (∀ other, pushContribution w st1 other = pushContribution w st other) →
    (∀ n c, edsClusters st !! n = Some c → pushContribution w st n = None →
       edsClusters st1 !! n = Some c) →
    ∃ st' acc',
      pushEdsLoop w rest st1 acc1 = Some (st', acc')
      ∧ resAny acc' = resAny acc ++ omap (pushContribution w st) (clusterName :: rest)
      ∧ (∀ other, pushContribution w st' other = pushContribution w st other)
      ∧ (∀ n c, edsClusters st !! n = Some c → pushContribution w st n = None →
           edsClusters st' !! n = Some c)) as Hadd.
  { intros st1 acc1 l Hc Hres Hsame Hkeep.
    destruct (IH st1 acc1) as (st' & acc' & Hrun & Hres' & Hsame' & Hkeep').
    exists st', acc'. split; [done|]. split; [|split].
    - rewrite Hres', Hres. simpl. rewrite Hc, <-app_assoc. simpl.
      f_equal. f_equal. by apply omap_pointwise.
    - intros other. by rewrite Hsame', Hsame.
    - intros n c Hn Hf. apply Hkeep'; [by apply Hkeep|]. by rewrite Hsame. }
  assert (∀ st1,
    pushContribution w st clusterName = None →
    (∀ other, pushContribution w st1 other = pushContribution w st other) →
    (∀ n c, edsClusters st !! n = Some c → pushContribution w st n = None →
       edsClusters st1 !! n = Some c) →
    ∃ st' acc',
      pushEdsLoop w rest st1 acc = Some (st', acc')
      ∧ resAny acc' = resAny acc ++ omap (pushContribution w st) (clusterName :: rest)
      ∧ (∀ other, pushContribution w st' other = pushContribution w st other)
      ∧ (∀ n c, edsClusters st !! n = Some c → pushContribution w st n = None →
           edsClusters st' !! n = Some c)) as Hskip.
  { intros st1 Hc Hsame Hkeep.
    destruct (IH st1 acc) as (st' & acc' & Hrun & Hres' & Hsame' & Hkeep').
    exists st', acc'. split; [done|]. split; [|split].
    - rewrite Hres'. simpl. rewrite Hc.
      f_equal. by apply omap_pointwise.
    - intros other. by rewrite Hsame', Hsame.
    - intros n c Hn Hf. apply Hkeep'; [by apply Hkeep|]. by rewrite Hsame. }
  simpl. unfold getOrAddEdsCluster, loadAssignment.
  destruct (edsClusters st !! clusterName) as [c|] eqn:Hlook.
  - destruct (LoadAssignment c) as [l|] eqn:Hl.
    + apply (Hadd _ _ l); [|done..].
      unfold pushContribution. by rewrite Hlook; simpl; rewrite Hl.
    + unfold updateCluster.
      destruct (clusterInstances w clusterName) as [instances|err] eqn:Hi.
      * cbv zeta.
        match goal with |- context [storeCluster clusterName ?c' st] =>
          set (cnew := c') end.
        assert (LoadAssignment cnew
                = Some {| ClusterName := clusterName;
                          Endpoints := localityLbEndpointsFromInstances instances |})
          as Hnew by (subst cnew; by case_match).
        assert (pushContribution w st clusterName
                = Some {| ClusterName := clusterName;
                          Endpoints := localityLbEndpointsFromInstances instances |})
          as Hc.
        { unfold pushContribution. by rewrite Hlook; simpl; rewrite Hl, Hi. }
        rewrite Hnew. eapply Hadd; [done|done| |].
        -- intros other. by eapply pushContribution_store.
        -- intros n c0 Hn Hf. simpl.
           rewrite lookup_insert_ne; [done|]. intros <-. congruence.
      * apply Hskip; [|done..].
        unfold pushContribution. by rewrite Hlook; simpl; rewrite Hl, Hi.
  - simpl. unfold updateCluster.
    destruct (clusterInstances w clusterName) as [instances|err] eqn:Hi.
    + cbv zeta.
      match goal with |- context [storeCluster clusterName ?c' _] =>
        set (cnew := c') end.
      assert (LoadAssignment cnew
              = Some {| ClusterName := clusterName;
                        Endpoints := localityLbEndpointsFromInstances instances |})
        as Hnew by (subst cnew; by case_match).
      assert (pushContribution w st clusterName
              = Some {| ClusterName := clusterName;
                        Endpoints := localityLbEndpointsFromInstances instances |})
        as Hc.
      { unfold pushContribution. by rewrite Hlook; simpl; rewrite Hi. }
      rewrite Hnew. eapply Hadd; [done|done| |].
      * intros other. erewrite pushContribution_store; [| done |].
        -- by apply pushContribution_fresh.
        -- by rewrite pushContribution_fresh.
      * intros n c0 Hn Hf. simpl.
        rewrite !lookup_insert_ne; [done|intros <-; congruence..].
    + apply Hskip.
      * unfold pushContribution. by rewrite Hlook; simpl; rewrite Hi.
      * intros other. by apply pushContribution_fresh.
      * intros n c0 Hn Hf. simpl.
        rewrite lookup_insert_ne; [done|intros <-; congruence].
Qed.

(** C10. A successful recomputation installs a snapshot, so that the
    load assignment read after it is not nil; and the push of a
    connection never dereferences a nil load assignment: for each watched
    cluster it uses the snapshot of the entry, or the one a successful
    recomputation has just installed, and it skips the cluster when the
    recomputation fails. *)
Theorem pushEds_no_nil_dereference (w : World) :
  (∀ clusterName c c',
     updateCluster w clusterName c = (c', None) → is_Some (loadAssignment c'))
  ∧ (∀ con st, is_Some (pushEds w con st)).
Proof.
  split.
  - intros clusterName c c'. apply updateCluster_installs.
  - intros con st. unfold pushEds.
    destruct (pushEdsLoop_spec w (Clusters con) st noStats)
      as (st' & acc' & -> & _). eauto.
Qed.

(** C4. When the registry lookup of a recomputation fails, the cache
    entry is returned exactly as it was (snapshot and first-non-empty
    timestamp included) together with the error.  A push skips exactly
    the watched clusters that have no snapshot and whose lookup fails:
    every other watched cluster contributes its snapshot to the response,
    in order, and the entries of the skipped clusters are left as they
    were. *)
Theorem resolution_error_skips_one_resource (w : World) :
  (∀ clusterName c err,
     clusterInstances w clusterName = Err err →
     updateCluster w clusterName c = (c, Some err))
  ∧ (∀ con st, ∃ st' response sendErr,
       pushEds w con st = Some (st', response, sendErr)
       ∧ Resources response = omap (pushContribution w st) (Clusters con)
       ∧ (∀ n c, edsClusters st !! n = Some c → pushContribution w st n = None →
            edsClusters st' !! n = Some c))
  ∧ (∀ st clusterName,
       pushContribution w st clusterName = None
       ↔ edsClusters st !! clusterName ≫= LoadAssignment = None
         ∧ is_ok (clusterInstances w clusterName) = false).
Proof.
  split; [|split].
  - intros clusterName c err. apply updateCluster_error.
  - intros con st. unfold pushEds.
    destruct (pushEdsLoop_spec w (Clusters con) st noStats)
      as (st' & acc' & -> & Hres & _ & Hkeep).
    eexists _, _, _. split; [done|]. split; [|done]. by rewrite Hres.
  - intros st clusterName. unfold pushContribution.
    destruct (edsClusters st !! clusterName ≫= LoadAssignment);
      [by split; [|intros [? _]]|].
    destruct (clusterInstances w clusterName); simpl; split; try done.
    by intros [_ ?].
Qed.

End PushProperties.

(** The recomputation of svc-a, which the sample registry resolves. *)
Lemma pushEds_no_nil_dereference_witness :
  is_Some (loadAssignment
             (updateCluster (collaborators := sampleCollaborators) 1000 "svc-a"
                            freshCluster).1).
Proof.
  apply (proj1 (pushEds_no_nil_dereference (collaborators := sampleCollaborators) 1000)
           "svc-a" freshCluster).
  vm_compute. reflexivity.
Defined.

(** A push for three clusters, the second of which the sample registry
    fails to resolve. *)
Lemma resolution_error_skips_one_resource_witness :
  updateCluster (collaborators := sampleCollaborators) 1000 "svc-down" freshCluster
  = (freshCluster, Some "registry unavailable")
  ∧ ∃ st' response sendErr,
      pushEds (collaborators := sampleCollaborators) 1000
        (sampleConnection ["svc-a"; "svc-down"; "svc-b"]) initialState
      = Some (st', response, sendErr)
      ∧ ClusterName <$> Resources response = ["svc-a"; "svc-b"].
Proof.
  destruct (resolution_error_skips_one_resource
              (collaborators := sampleCollaborators) 1000) as (Herr & Hpush & _).
  split.
  - apply Herr. vm_compute. reflexivity.
  - destruct (Hpush (sampleConnection ["svc-a"; "svc-down"; "svc-b"]) initialState)
      as (st' & response & sendErr & Hrun & Hres & _).
    exists st', response, sendErr. split; [exact Hrun|].
    rewrite Hres. vm_compute. reflexivity.
Defined.

(** ** Stream handler *)

Section StreamProperties.

Context {collaborators : Collaborators}.

Lemma addEdsCon_watches w clusterName node connection st :
  watches (addEdsCon w clusterName node connection st) clusterName node connection.
Proof.
  unfold watches, addEdsCon, getOrAddEdsCluster.
  destruct (edsClusters st !! clusterName); simpl;
    rewrite lookup_insert_eq; eexists; (split; [done|]); simpl;
    apply lookup_insert_eq.
Qed.

Lemma addEdsCon_keeps_watches w clusterName node connection st other :
  watches st other node connection →
  watches (addEdsCon w clusterName node connection st) other node connection.
Proof.
  intros (c & Hc & Hnode).
  destruct (decide (clusterName = other)) as [<-|Hne].
  { apply addEdsCon_watches. }
  exists c. split; [|done].
  unfold addEdsCon, getOrAddEdsCluster.
  destruct (edsClusters st !! clusterName); simpl.
    all: by rewrite !lookup_insert_ne.
Qed.

Lemma addEdsCon_all_keeps w clusterNames node connection st other :
  watches st other node connection →
  watches (foldl (λ s c, addEdsCon w c node connection s) st clusterNames)
          other node connection.
Proof.
  revert st. induction clusterNames as [|n rest IH]; intros st Hw; [done|].
  simpl. apply IH. by apply addEdsCon_keeps_watches.
Qed.

Lemma addEdsCon_all_watches w clusterNames node connection st :
  Forall (λ clusterName,
            watches (foldl (λ s c, addEdsCon w c node connection s) st clusterNames)
                    clusterName node connection) clusterNames.
Proof.
  revert st. induction clusterNames as [|n rest IH]; intros st; [constructor|].
  simpl. constructor; [|apply IH].
  apply addEdsCon_all_keeps, addEdsCon_watches.
Qed.

(** C1. On a stream that has received its first request, a request that
    names more clusters than the connection watches is handled exactly as
    a first request is (the handler gives the same result as when no
    request had been received): the watched list becomes the list of
    the request, the handler goes on to the push, and the connection is
    registered, under its identity, as a watcher of every cluster the
    request names, the cache entries being created where they are
    missing.  The source compares the lengths of the two lists. *)
Theorem superset_request_is_first_request w discReq st ss :
  initialRequestReceived ss = true →
  (length (Clusters (con ss)) < length (ResourceNames discReq))%nat →
  receiveRequest w discReq st ss
  = receiveRequest w discReq st (set_initialRequestReceived false ss)
  ∧ ∃ st' ss',
      receiveRequest w discReq st ss = (st', ss', Proceed)
      ∧ initialRequestReceived ss' = true
      ∧ Clusters (con ss') = ResourceNames discReq
      ∧ ConID (con ss') = conID ss'
      ∧ Forall (λ clusterName, watches st' clusterName (conID ss') (conPtr ss))
               (ResourceNames discReq).
Proof.
  intros Hirr Hlen. unfold receiveRequest. simpl. rewrite Hirr.
  rewrite (bool_decide_eq_true_2 _ Hlen). simpl.
  split; [done|].
  destruct (match Node discReq with
            | Some node =>
                if bool_decide (conID ss = "") then connectionID node st
                else (conID ss, st)
            | None => (conID ss, st)
            end) as [conID1 st1].
  destruct (added (con ss)); do 2 eexists; (split; [reflexivity|]); simpl;
    repeat split; try done.
  - apply addEdsCon_all_watches.
  - eapply Forall_impl; [apply addEdsCon_all_watches|].
    intros clusterName Hw. exact Hw.
Qed.

(** C3. On a stream that has received its first request and watches at
    least one cluster, a request that names no more clusters than the
    connection watches is an acknowledgment: the connection (its watched
    list included), the registry with every cache entry, the connection
    directory and the push channels are left as they were, the loop goes
    on with the next event, and no response is handed to the stream. *)
Theorem acknowledgment_is_ignored w discReq st ss :
  initialRequestReceived ss = true →
  (0 < length (Clusters (con ss)))%nat →
  (length (ResourceNames discReq) ≤ length (Clusters (con ss)))%nat →
  ∃ st' ss',
    streamIteration w (Request discReq) st ss = Running st' ss' []
    ∧ con ss' = con ss
    ∧ initialRequestReceived ss' = true
    ∧ edsClusters st' = edsClusters st
    ∧ adsClients st' = adsClients st
    ∧ pushChannels st' = pushChannels st.
Proof.
  intros Hirr Hpos Hlen. unfold streamIteration, receiveRequest. rewrite Hirr.
  cbv zeta.
  rewrite (bool_decide_eq_false_2
             (length (Clusters (con ss)) < length (ResourceNames discReq))%nat) by lia.
  rewrite (bool_decide_eq_true_2 _ Hpos). simpl.
  destruct (Node discReq) as [node|]; [case_bool_decide|];
    do 2 eexists; (split; [reflexivity|]); done.
Qed.

End StreamProperties.

(** The sidecar of the sample grows its watch list from svc-a to svc-a and
    svc-b. *)
Lemma superset_request_is_first_request_witness :
  receiveRequest (collaborators := sampleCollaborators) 1000 sampleSupersetRequest
    sampleEstablishedState sampleEstablishedStream
  = receiveRequest 1000 sampleSupersetRequest sampleEstablishedState
      (set_initialRequestReceived false sampleEstablishedStream)
  ∧ ∃ st' ss',
      receiveRequest (collaborators := sampleCollaborators) 1000 sampleSupersetRequest
        sampleEstablishedState sampleEstablishedStream = (st', ss', Proceed)
      ∧ initialRequestReceived ss' = true
      ∧ Clusters (con ss') = ResourceNames sampleSupersetRequest
      ∧ ConID (con ss') = conID ss'
      ∧ Forall (λ clusterName,
                  watches st' clusterName (conID ss') (conPtr sampleEstablishedStream))
               (ResourceNames sampleSupersetRequest).
Proof.
  apply (superset_request_is_first_request (collaborators := sampleCollaborators)).
  - vm_compute. reflexivity.
  - vm_compute. lia.
Defined.

(** The sidecar of the sample acknowledges the push for svc-a. *)
Lemma acknowledgment_is_ignored_witness :
  ∃ st' ss',
    streamIteration (collaborators := sampleCollaborators) 1000
      (Request sampleAcknowledgment) sampleEstablishedState sampleEstablishedStream
    = Running st' ss' []
    ∧ con ss' = con sampleEstablishedStream
    ∧ initialRequestReceived ss' = true
    ∧ edsClusters st' = edsClusters sampleEstablishedState
    ∧ adsClients st' = adsClients sampleEstablishedState
    ∧ pushChannels st' = pushChannels sampleEstablishedState.
Proof.
  apply (acknowledgment_is_ignored (collaborators := sampleCollaborators)).
  - vm_compute. reflexivity.
  - vm_compute. lia.
  - vm_compute. lia.
Defined.

(** ** Global push *)

Section BroadcastProperties.

Context {collaborators : Collaborators}.

Lemma chanSend_empty edsCon ev st :
  pushChannels st !! edsCon = None →
  chanSend edsCon ev st
  = Some (set_pushChannels (<[edsCon := ev]> (pushChannels st)) st).
Proof. unfold chanSend. by intros ->. Qed.


Lemma chanSend_Some edsCon ev st st' :
  chanSend edsCon ev st = Some st' →
  pushChannels st !! edsCon = None
  ∧ pushChannels st' !! edsCon = Some ev
  ∧ pushChannels st ⊆ pushChannels st'
  ∧ edsClusters st' = edsClusters st.
Proof.
  unfold chanSend. destruct (pushChannels st !! edsCon) eqn:Hslot; [done|].
  intros [= <-]. simpl. split; [done|]. split; [apply lookup_insert_eq|].
  split; [|done]. by apply insert_subseteq.
Qed.

Lemma signalClients_Completed clusterName clients st st' :
  signalClients clusterName clients st = Completed st' →
  pushChannels st ⊆ pushChannels st'
  ∧ edsClusters st' = edsClusters st
  ∧ ∀ node edsCon, (node, edsCon) ∈ clients →
      pushChannels st !! edsCon = None ∧ is_Some (pushChannels st' !! edsCon).
Proof.
  revert st. induction clients as [|[node0 p0] clients IH]; intros st; simpl.
  { intros [= <-]. split; [done|]. split; [done|].
    intros ?? Hin. by apply elem_of_nil in Hin. }
  destruct (chanSend p0 _ st) as [st1|] eqn:Hsend; [|done].
  intros Hrest. apply chanSend_Some in Hsend as (Hnone & Hset & Hsub & Hcl).
  apply IH in Hrest as (Hsub' & Hcl' & Hall).
  split; [by etrans|]. split; [congruence|].
  intros node edsCon Hin. apply elem_of_cons in Hin as [[= -> ->]|Hin].
  - split; [done|]. exists {| clusters := [clusterName] |}.
    by eapply lookup_weaken.
  - destruct (Hall _ _ Hin) as [Hn Hs]. split; [|done].
    destruct (pushChannels st !! edsCon) as [ev|] eqn:Hslot; [|done].
    eapply lookup_weaken in Hslot; [|done]. congruence.
Qed.


Lemma updateCluster_EdsClients w clusterName c :
  EdsClients (updateCluster w clusterName c).1 = EdsClients c.
Proof.
  unfold updateCluster. destruct (clusterInstances w clusterName); [|done].
  cbv zeta. by case_match.
Qed.

Lemma updateCluster_status w clusterName c :
  (updateCluster w clusterName c).2 = None
  ↔ is_ok (clusterInstances w clusterName) = true.
Proof.
  unfold updateCluster. by destruct (clusterInstances w clusterName).
Qed.

Lemma pushAllLoop_Completed w tmpMap st st' :
  pushAllLoop w tmpMap st = Completed st' →
  pushChannels st ⊆ pushChannels st'
  ∧ ∀ clusterName c node edsCon,
      (clusterName, c) ∈ tmpMap →
      is_ok (clusterInstances w clusterName) = true →
      EdsClients c !! node = Some edsCon →
      pushChannels st !! edsCon = None ∧ is_Some (pushChannels st' !! edsCon).
Proof.
  revert st. induction tmpMap as [|[n0 c0] tmpMap IH]; intros st; simpl.
  { intros [= <-]. split; [done|]. intros ???? Hin. by apply elem_of_nil in Hin. }
  pose proof (updateCluster_EdsClients w n0 c0) as Hclients.
  pose proof (updateCluster_status w n0 c0) as Hstatus.
  destruct (updateCluster w n0 c0) as [c' [err|]]; simpl in *.
  - intros Hrest. apply IH in Hrest as [Hsub Hall]. split; [done|].
    intros clusterName c node edsCon Hin Hok Hw.
    apply elem_of_cons in Hin as [[= -> ->]|Hin]; [|by eauto].
    destruct Hstatus as [_ Hstatus]. by specialize (Hstatus Hok).
  - destruct (signalClients n0 _ _) as [st1|st1 n1 p1] eqn:Hsig; [|done].
    intros Hrest. apply IH in Hrest as [Hsub Hall].
    apply signalClients_Completed in Hsig as (Hsub1 & _ & Hall1). simpl in *.
    split; [by etrans|].
    intros clusterName c node edsCon Hin Hok Hw.
    apply elem_of_cons in Hin as [[= -> ->]|Hin].
    + destruct (Hall1 node edsCon) as [Hn [ev Hs]].
      { apply elem_of_map_to_list. by rewrite Hclients. }
      split; [done|]. exists ev. by eapply lookup_weaken.
    + destruct (Hall _ _ _ _ Hin Hok Hw) as [Hn Hs]. split; [|done].
      destruct (pushChannels st !! edsCon) as [ev|] eqn:Hslot; [|done].
      eapply lookup_weaken in Hslot; [|exact Hsub1]. congruence.
Qed.



End BroadcastProperties.




(** ** Scenarios of the sample *)

(** A first request for svc-a: the push that follows carries one resource
    with two locality groups, of two endpoints and of one endpoint. *)
Example scenario_first_request_two_zones :
  match streamIteration (collaborators := sampleCollaborators) 1000
          (Request sampleFirstRequest) initialState
          (newStream (collaborators := sampleCollaborators) 1000
                     "10.1.1.1:5000" 7%nat 0%nat) with
  | Running _ ss [response] =>
      conID ss = "sidecar-1"
      ∧ ((λ l, (ClusterName l,
                (λ g, (Zone g, length (LbEndpoints g))) <$> Endpoints l))
           <$> Resources response)
        = [("svc-a", [("z1", 2%nat); ("z2", 1%nat)])]
  | _ => False
  end.
Proof. vm_compute. split; reflexivity. Qed.

(** A push for a cluster without instances: one resource without groups,
    and the first-non-empty timestamp of the entry stays unset. *)
Example scenario_no_instances :
  match pushEds (collaborators := sampleCollaborators) 1000
          (sampleConnection ["svc-none"]) initialState with
  | Some (st', response, None) =>
      Resources response = [{| ClusterName := "svc-none"; Endpoints := [] |}]
      ∧ NonEmptyTime <$> edsClusters st' !! "svc-none" = Some 0
  | _ => False
  end.
Proof. vm_compute. split; reflexivity. Qed.

(** A global push while the watcher of svc-a has an empty push channel: it
    runs to its end and leaves the signal of the watcher set. *)
Example scenario_global_push :
  match edsPushAll (collaborators := sampleCollaborators) 2000
          sampleEstablishedState with
  | Completed st' =>
      pushChannels st' !! 7%nat = Some {| clusters := ["svc-a"] |}
  | Blocked _ _ _ => False
  end.
Proof. vm_compute. reflexivity. Qed.

(** * Further properties *)

(** ** Cluster cache: registration and recomputation *)

Section CacheExtras.

Context {collaborators : Collaborators}.

(** X1. After getOrAddEdsCluster the registry holds, under the name, the
    cluster that was returned, and asking again returns the same cluster
    and changes nothing.  An entry that exists is returned as it is, with
    the state untouched; a missing one is created without snapshot, without
    watchers, with an unset first-non-empty timestamp and the current time
    as time of first use.  No other entry, and nothing else of the state,
    changes. *)
Theorem getOrAddEdsCluster_lookup (w : World) (clusterName : string) (st : State) :
  let c := (getOrAddEdsCluster w clusterName st).1 in
  let st' := (getOrAddEdsCluster w clusterName st).2 in
  getEdsCluster clusterName st' = Some c
  ∧ (∀ w', getOrAddEdsCluster w' clusterName st' = (c, st'))
  ∧ (∀ old, getEdsCluster clusterName st = Some old → c = old ∧ st' = st)
  ∧ (getEdsCluster clusterName st = None →
       LoadAssignment c = None ∧ EdsClients c = ∅
       ∧ IsZero (NonEmptyTime c) = true ∧ FirstUse c = Now w)
  ∧ (∀ other, other ≠ clusterName →
       getEdsCluster other st' = getEdsCluster other st)
  ∧ connectionNumber st' = connectionNumber st
  ∧ adsClients st' = adsClients st
  ∧ pushChannels st' = pushChannels st.
Proof.
  unfold getOrAddEdsCluster, getEdsCluster.
  destruct (edsClusters st !! clusterName) as [c|] eqn:Hc; simpl.
  - rewrite Hc. split; [done|]. split; [done|].
    split; [by intros old [= ->]|]. done.
  - rewrite lookup_insert_eq. split; [done|]. split; [done|]. split; [done|].
    split; [done|]. split; [|done].
    intros other Hne. by rewrite lookup_insert_ne.
Qed.

Lemma addEdsCon_lookup w clusterName node connection st :
  edsClusters (addEdsCon w clusterName node connection st) !! clusterName
  = Some (set_EdsClients
            (<[node := connection]>
               (EdsClients (getOrAddEdsCluster w clusterName st).1))
            (getOrAddEdsCluster w clusterName st).1).
Proof.
  unfold addEdsCon. destruct (getOrAddEdsCluster w clusterName st) as [c st1].
  simpl. apply lookup_insert_eq.
Qed.

Lemma addEdsCon_lookup_ne w clusterName node connection st other :
  other ≠ clusterName →
  edsClusters (addEdsCon w clusterName node connection st) !! other
  = edsClusters st !! other.
Proof.
  intros Hne. unfold addEdsCon, getOrAddEdsCluster.
  destruct (edsClusters st !! clusterName); simpl; by rewrite !lookup_insert_ne.
Qed.

(** X2. addEdsCon registers the connection under the node key of the
    named cluster, replacing whatever was registered under that key; an
    entry that exists keeps its snapshot, its timestamps and the watchers
    under every other key; a missing entry is created with this watcher
    only.  No other entry, and nothing else of the state, changes. *)
Theorem addEdsCon_registers (w : World) (clusterName node : string)
    (connection : conn_ptr) (st : State) :
  let st' := addEdsCon w clusterName node connection st in
  ∃ c', edsClusters st' !! clusterName = Some c'
    ∧ EdsClients c' !! node = Some connection
    ∧ (∀ old, edsClusters st !! clusterName = Some old →
         LoadAssignment c' = LoadAssignment old
         ∧ FirstUse c' = FirstUse old
         ∧ NonEmptyTime c' = NonEmptyTime old
         ∧ ∀ other, other ≠ node → EdsClients c' !! other = EdsClients old !! other)
    ∧ (edsClusters st !! clusterName = None →
         LoadAssignment c' = None ∧ EdsClients c' = {[ node := connection ]})
    ∧ (∀ other, other ≠ clusterName →
         edsClusters st' !! other = edsClusters st !! other)
    ∧ connectionNumber st' = connectionNumber st
    ∧ adsClients st' = adsClients st
    ∧ pushChannels st' = pushChannels st.
Proof.
  simpl. eexists. split; [apply addEdsCon_lookup|].
  unfold addEdsCon, getOrAddEdsCluster.
  destruct (edsClusters st !! clusterName) as [c|] eqn:Hc; simpl.
  - split; [apply lookup_insert_eq|]. split.
    { intros old [= <-]. repeat split; try done.
      intros other Hne. by rewrite lookup_insert_ne. }
    split; [done|]. split; [|done].
    intros other Hne. by rewrite lookup_insert_ne.
  - split; [apply lookup_insert_eq|]. split; [done|].
    split; [by rewrite insert_empty|]. split; [|done].
    intros other Hne. by rewrite !lookup_insert_ne.
Qed.

(** X3. removeEdsCon changes nothing unless this very connection is the
    one registered under the node key of the named cluster: a missing
    cluster, a missing key, or a key that by now belongs to another
    connection (a restarted Envoy) leave the state as it is. *)
Theorem removeEdsCon_only_own_registration (clusterName node : string)
    (connection : conn_ptr) (st : State) :
  ¬ watches st clusterName node connection →
  removeEdsCon clusterName node connection st = st.
Proof.
  intros Hnot. unfold removeEdsCon, getEdsCluster.
  destruct (edsClusters st !! clusterName) as [c|] eqn:Hc; [|done].
  destruct (EdsClients c !! node) as [oldcon|] eqn:Hnode; [|done].
  case_bool_decide as Hcmp; [done|].
  destruct Hnot. exists c. split; [done|]. rewrite Hnode. f_equal.
  by destruct (decide (oldcon = connection)).
Qed.

(** X4. Registering a connection and removing it again restores the
    state, when the cluster was missing (it is created, then pruned) or
    when it existed with other watchers and without this node key. *)
Theorem addEdsCon_removeEdsCon (w : World) (clusterName node : string)
    (connection : conn_ptr) (st : State) :
  (edsClusters st !! clusterName = None
   ∨ ∃ c, edsClusters st !! clusterName = Some c
          ∧ EdsClients c !! node = None ∧ EdsClients c ≠ ∅) →
  removeEdsCon clusterName node connection
    (addEdsCon w clusterName node connection st) = st.
Proof.
  intros Hpre. unfold removeEdsCon, getEdsCluster.
  rewrite addEdsCon_lookup. simpl. rewrite lookup_insert_eq.
  rewrite bool_decide_eq_false_2 by (intros ?; done).
  rewrite delete_insert_eq.
  unfold addEdsCon, getOrAddEdsCluster.
  destruct st as [reg num ads chans]. simpl in *.
  destruct Hpre as [Hnone|(c & Hc & Hnode & Hne)].
  - rewrite Hnone. simpl. rewrite delete_empty, map_size_empty. simpl.
    unfold set_edsClusters, storeCluster, set_edsClusters. simpl. f_equal.
    rewrite !delete_insert_eq. by apply delete_id.
  - rewrite Hc. simpl. rewrite (delete_id _ _ Hnode).
    rewrite bool_decide_eq_false_2.
    2:{ intros Hsize. by apply map_size_empty_iff in Hsize. }
    unfold set_edsClusters, storeCluster, set_edsClusters. simpl. f_equal.
    rewrite insert_insert_eq. apply insert_id. rewrite Hc. f_equal.
    by destruct c.
Qed.

Lemma sameSnapshot_refl l : sameSnapshot l l.
Proof. by destruct l. Qed.

(** X5. Recomputing a cluster a second time in the same world returns the
    same error status and a cluster with the same content: the same
    watchers and timestamps, and a snapshot with the same groups, whose
    order alone may differ from one computation to the next.  A
    recomputation, failed or not, never changes the watchers nor the time
    of first use.  The function [updateCluster] is one of the outcomes. *)
Theorem updateCluster_idempotent_up_to_order (w : World) (clusterName : string)
    (c : EdsCluster) :
  updateClusterOutcome w clusterName c
    (updateCluster w clusterName c).1 (updateCluster w clusterName c).2
  ∧ (∀ c1 e1,
       updateClusterOutcome w clusterName c c1 e1 →
       EdsClients c1 = EdsClients c ∧ FirstUse c1 = FirstUse c)
  ∧ (∀ c1 e1 c2 e2,
       updateClusterOutcome w clusterName c c1 e1 →
       updateClusterOutcome w clusterName c1 c2 e2 →
       e2 = e1
       ∧ sameSnapshot (LoadAssignment c2) (LoadAssignment c1)
       ∧ NonEmptyTime c2 = NonEmptyTime c1
       ∧ EdsClients c2 = EdsClients c1
       ∧ FirstUse c2 = FirstUse c1).
Proof.
  assert (∀ c0 c1 e1,
       updateClusterOutcome w clusterName c0 c1 e1 →
       EdsClients c1 = EdsClients c0 ∧ FirstUse c1 = FirstUse c0) as Hframe.
  { intros c0 c1 e1 [err Herr|instances locEps Hi Hperm]; [done|].
    cbv zeta. by case_match. }
  split; [|split].
  - unfold updateCluster.
    destruct (clusterInstances w clusterName) as [instances|err] eqn:Hi.
    + by apply (outcome_groups w clusterName c instances).
    + by apply outcome_error.
  - intros c1 e1. apply Hframe.
  - intros c1 e1 c2 e2 H1 H2.
    destruct (Hframe _ _ _ H2) as [Hcl Hfu].
    destruct H1 as [err1 Herr1|instances1 locEps1 Hi1 Hperm1];
      destruct H2 as [err2 Herr2|instances2 locEps2 Hi2 Hperm2];
      try congruence.
    + split; [congruence|]. split; [apply sameSnapshot_refl|done].
    + split; [done|]. rewrite Hi1 in Hi2. injection Hi2 as <-.
      assert (locEps2 ≡ₚ locEps1) as Hperm by (by rewrite Hperm1, Hperm2).
      assert (length locEps2 = length locEps1) as Hlen
        by (by apply Permutation_length).
      cbv zeta in *. rewrite Hlen.
      destruct (bool_decide (0 < length locEps1)%nat); simpl.
      * destruct (IsZero (NonEmptyTime c)) eqn:Hz; simpl.
        -- destruct (IsZero (Now w)); simpl; by repeat split.
        -- rewrite Hz. simpl. by repeat split.
      * by repeat split.
Qed.

End CacheExtras.

(** svc-b is not registered in the sample. *)
Lemma getOrAddEdsCluster_lookup_witness :
  LoadAssignment (getOrAddEdsCluster (collaborators := sampleCollaborators)
                    1000 "svc-b" sampleEstablishedState).1 = None
  ∧ EdsClients (getOrAddEdsCluster (collaborators := sampleCollaborators)
                  1000 "svc-b" sampleEstablishedState).1 = ∅
  ∧ IsZero (NonEmptyTime (getOrAddEdsCluster (collaborators := sampleCollaborators)
                            1000 "svc-b" sampleEstablishedState).1) = true
  ∧ FirstUse (getOrAddEdsCluster (collaborators := sampleCollaborators)
                1000 "svc-b" sampleEstablishedState).1 = 1000.
Proof.
  destruct (getOrAddEdsCluster_lookup (collaborators := sampleCollaborators)
              1000 "svc-b" sampleEstablishedState) as (_ & _ & _ & Hnew & _).
  apply Hnew. vm_compute. reflexivity.
Defined.

(** A second connection starts to watch svc-a. *)
Lemma addEdsCon_registers_witness :
  ∃ c', edsClusters (addEdsCon (collaborators := sampleCollaborators)
                       1000 "svc-a" "sidecar-2" 8%nat sampleEstablishedState)
          !! "svc-a" = Some c'
        ∧ EdsClients c' !! "sidecar-2" = Some 8%nat
        ∧ EdsClients c' !! "sidecar-1" = Some 7%nat.
Proof.
  destruct (addEdsCon_registers (collaborators := sampleCollaborators)
              1000 "svc-a" "sidecar-2" 8%nat sampleEstablishedState)
    as (c' & Hc' & Hnode & Hold & _).
  exists c'. split; [exact Hc'|]. split; [exact Hnode|].
  destruct (Hold {| LoadAssignment := None; FirstUse := 1000;
                    EdsClients := {[ "sidecar-1" := 7%nat ]}; NonEmptyTime := 0 |})
    as (_ & _ & _ & Hothers).
  - vm_compute. reflexivity.
  - rewrite (Hothers "sidecar-1"); [|discriminate]. vm_compute. reflexivity.
Defined.

(** The key of the sidecar is held by the connection at address 7, not 8. *)
Lemma removeEdsCon_only_own_registration_witness :
  removeEdsCon "svc-a" "sidecar-1" 8%nat sampleEstablishedState
  = sampleEstablishedState.
Proof.
  apply removeEdsCon_only_own_registration.
  intros (c & Hc & Hnode). vm_compute in Hc. injection Hc as <-.
  vm_compute in Hnode. discriminate.
Defined.

(** svc-a is registered and removed again at the start of the process. *)
Lemma addEdsCon_removeEdsCon_witness :
  removeEdsCon "svc-a" "sidecar-1" 7%nat
    (addEdsCon (collaborators := sampleCollaborators) 1000 "svc-a" "sidecar-1" 7%nat
               initialState)
  = initialState.
Proof.
  apply (addEdsCon_removeEdsCon (collaborators := sampleCollaborators)).
  left. vm_compute. reflexivity.
Defined.

(** Two recomputations of svc-a at time 1000, as the function performs
    them. *)
Lemma updateCluster_idempotent_up_to_order_witness :
  let c1 := (updateCluster (collaborators := sampleCollaborators) 1000 "svc-a"
                           freshCluster).1 in
  let c2 := (updateCluster (collaborators := sampleCollaborators) 1000 "svc-a" c1).1 in
  sameSnapshot (LoadAssignment c2) (LoadAssignment c1)
  ∧ NonEmptyTime c2 = NonEmptyTime c1.
Proof.
  intros c1 c2.
  destruct (updateCluster_idempotent_up_to_order (collaborators := sampleCollaborators)
              1000 "svc-a" freshCluster) as (Hfirst & _ & Hsame).
  destruct (updateCluster_idempotent_up_to_order (collaborators := sampleCollaborators)
              1000 "svc-a" c1) as (Hsecond & _ & _).
  destruct (Hsame _ _ _ _ Hfirst Hsecond) as (_ & Hsnap & Htime & _).
  split; [exact Hsnap|exact Htime].
Defined.

Section RemovalExtras.

(** X16. After removeEdsCon the connection is not registered under the
    node key of the named cluster, and every registration under another
    cluster or another key is kept; the counter, the directory and the
    push channels are unchanged. *)
Theorem removeEdsCon_unregisters (clusterName node : string) (connection : conn_ptr)
    (st : State) :
  let st' := removeEdsCon clusterName node connection st in
  ¬ watches st' clusterName node connection
  ∧ (∀ n' node' p',
       watches st n' node' p' → n' ≠ clusterName ∨ node' ≠ node →
       watches st' n' node' p')
  ∧ connectionNumber st' = connectionNumber st
  ∧ adsClients st' = adsClients st
  ∧ pushChannels st' = pushChannels st.
Proof.
  simpl. unfold watches, removeEdsCon, getEdsCluster.
  destruct (edsClusters st !! clusterName) as [c|] eqn:Hc.
  2:{ split; [|done]. intros (c & Hc' & _). congruence. }
  destruct (EdsClients c !! node) as [oldcon|] eqn:Hnode.
  2:{ split; [|done]. intros (c' & Hc' & Hn). congruence. }
  case_bool_decide as Hcmp.
  { split; [|done]. intros (c' & Hc' & Hn). congruence. }
  assert (oldcon = connection) as -> by (by destruct (decide (oldcon = connection))).
  simpl. case_bool_decide as Hsize; simpl.
  - split.
    { intros (c' & Hc' & _). by rewrite lookup_delete_eq in Hc'. }
    split; [|done]. intros n' node' p' (c' & Hc' & Hn') [Hne|Hne].
    + exists c'. by rewrite lookup_delete_ne, lookup_insert_ne.
    + destruct (decide (n' = clusterName)) as [->|Hne'].
      * exfalso. apply map_size_empty_iff in Hsize.
        assert (c' = c) as -> by congruence.
        assert (delete node (EdsClients c) !! node' = Some p') as Hin
          by (by rewrite lookup_delete_ne).
        rewrite Hsize in Hin. by rewrite lookup_empty in Hin.
      * exists c'. by rewrite lookup_delete_ne, lookup_insert_ne.
  - split.
    { intros (c' & Hc' & Hn). rewrite lookup_insert_eq in Hc'.
      injection Hc' as <-. simpl in Hn. by rewrite lookup_delete_eq in Hn. }
    split; [|done]. intros n' node' p' (c' & Hc' & Hn') Hor.
    destruct (decide (n' = clusterName)) as [->|Hne'].
    + assert (c' = c) as -> by congruence.
      destruct Hor as [?|Hne]; [done|].
      eexists. rewrite lookup_insert_eq. split; [done|]. simpl.
      by rewrite lookup_delete_ne.
    + exists c'. by rewrite lookup_insert_ne.
Qed.

End RemovalExtras.


(** Removing the sidecar from svc-b keeps it as a watcher of svc-a. *)
Lemma removeEdsCon_unregisters_witness :
  watches (removeEdsCon "svc-b" "sidecar-1" 7%nat
             (addEdsCon (collaborators := sampleCollaborators) 1000 "svc-b" "sidecar-1"
                        7%nat sampleEstablishedState))
          "svc-a" "sidecar-1" 7%nat.
Proof.
  apply removeEdsCon_unregisters.
  - eexists. split; vm_compute; reflexivity.
  - left. discriminate.
Defined.

(** ** Locality grouper: the groups *)

Section GrouperExtras.

Context {collaborators : Collaborators}.

Lemma zoneEndpoints_wellformed z (instances : list ServiceInstance) ep :
  ep ∈ zoneEndpoints z instances →
  ∃ instance, instance ∈ instances
    ∧ AvailabilityZone instance = z
    ∧ validAddress instance
    ∧ Address ep = Endpoint_Address instance
    ∧ PortValue ep = uint32 (Endpoint_Port instance)
    ∧ Protocol ep = TCP.
Proof.
  unfold zoneEndpoints. intros Hin.
  apply list_elem_of_omap in Hin as (instance & Hin & Hf).
  exists instance. split; [done|].
  case_decide as Hz; [|done]. split; [done|].
  unfold newEndpoint, validAddress in *.
  destruct (ParseIP (Endpoint_Address instance)) as [ip|]; [|done].
  simpl in Hf. injection Hf as <-. simpl. eauto 10.
Qed.

(** X6. Every group the locality grouper returns has at least one
    endpoint, and every endpoint in it comes from an instance of the
    group's zone: its address is the instance's and parses as an IP, its
    protocol is TCP, and its port is the instance's port truncated to 32
    bits. *)
Theorem localityLbEndpointsFromInstances_wellformed (instances : list ServiceInstance) :
  Forall (λ g,
            LbEndpoints g ≠ []
            ∧ Forall (λ ep,
                        is_Some (ParseIP (Address ep))
                        ∧ Protocol ep = TCP
                        ∧ 0 ≤ PortValue ep < 2 ^ 32
                        ∧ ∃ instance, instance ∈ instances
                            ∧ AvailabilityZone instance = Zone g
                            ∧ Address ep = Endpoint_Address instance
                            ∧ PortValue ep = uint32 (Endpoint_Port instance))
                     (LbEndpoints g))
         (localityLbEndpointsFromInstances instances).
Proof.
  apply Forall_forall. intros g Hin.
  unfold localityLbEndpointsFromInstances in Hin.
  apply list_elem_of_fmap in Hin as ([z g'] & -> & Hin).
  apply elem_of_map_to_list in Hin. simpl.
  rewrite localityEpMapOf_lookup in Hin. unfold groupOf in Hin.
  destruct (zoneEndpoints z instances) as [|ep eps] eqn:Heps; [done|].
  injection Hin as <-. simpl. split; [done|].
  apply Forall_forall. intros ep' Hep'. rewrite <-Heps in Hep'.
  apply zoneEndpoints_wellformed in Hep'
    as (instance & Hin & Hz & Hv & Haddr & Hport & Hproto).
  split; [by rewrite Haddr|]. split; [done|]. split.
  - rewrite Hport. unfold uint32. apply Z.mod_pos_bound. lia.
  - by exists instance.
Qed.

End GrouperExtras.

(** ** Push for one connection: the state *)

Section PushExtras.

Context {collaborators : Collaborators}.

Lemma pushEdsLoop_cons w clusterName rest st acc :
  ∃ acc1, pushEdsLoop w (clusterName :: rest) st acc
          = pushEdsLoop w rest (pushStepState w clusterName st) acc1.
Proof.
  simpl. unfold pushStepState.
  destruct (getOrAddEdsCluster w clusterName st) as [c st1].
  destruct (loadAssignment c) as [l|]; [by eexists|].
  destruct (updateCluster w clusterName c) as [c' [err|]] eqn:Hupd; [by eexists|].
  apply updateCluster_installs in Hupd as [l Hl]. rewrite Hl. by eexists.
Qed.

Lemma pushEdsLoop_state w clusterNames st acc st' acc' :
  pushEdsLoop w clusterNames st acc = Some (st', acc') →
  st' = foldl (λ s n, pushStepState w n s) st clusterNames.
Proof.
  revert st acc. induction clusterNames as [|n rest IH]; intros st acc.
  { by intros [= <- _]. }
  destruct (pushEdsLoop_cons w n rest st acc) as [acc1 ->]. apply IH.
Qed.

Lemma updateCluster_FirstUse w clusterName c :
  FirstUse (updateCluster w clusterName c).1 = FirstUse c.
Proof.
  unfold updateCluster. destruct (clusterInstances w clusterName); [|done].
  cbv zeta. by case_match.
Qed.

(** One iteration touches the entry of its cluster only, and there neither
    the watchers nor the time of first use. *)
Lemma pushStepState_frame w clusterName st :
  let st' := pushStepState w clusterName st in
  connectionNumber st' = connectionNumber st
  ∧ adsClients st' = adsClients st
  ∧ pushChannels st' = pushChannels st
  ∧ (∀ other, other ≠ clusterName →
       edsClusters st' !! other = edsClusters st !! other)
  ∧ (∃ c', edsClusters st' !! clusterName = Some c'
           ∧ match edsClusters st !! clusterName with
             | Some c => EdsClients c' = EdsClients c ∧ FirstUse c' = FirstUse c
             | None => EdsClients c' = ∅ ∧ FirstUse c' = Now w
             end).
Proof.
  simpl. unfold pushStepState, getOrAddEdsCluster, loadAssignment.
  destruct (edsClusters st !! clusterName) as [c|] eqn:Hc.
  - destruct (LoadAssignment c) as [l|] eqn:Hl.
    { repeat (split; [done|]). exists c. by rewrite Hc. }
    pose proof (updateCluster_EdsClients w clusterName c) as Hcl.
    pose proof (updateCluster_FirstUse w clusterName c) as Hfu.
    destruct (updateCluster w clusterName c) as [c' [err|]]; simpl in *.
    { repeat (split; [done|]). exists c. by rewrite Hc. }
    repeat (split; [done|]). split.
    + intros other Hne. by rewrite lookup_insert_ne.
    + exists c'. by rewrite lookup_insert_eq.
  - simpl.
    set (fresh := {| LoadAssignment := None; FirstUse := Now w;
                     EdsClients := ∅; NonEmptyTime := 0 |}).
    pose proof (updateCluster_EdsClients w clusterName fresh) as Hcl.
    pose proof (updateCluster_FirstUse w clusterName fresh) as Hfu.
    destruct (updateCluster w clusterName fresh) as [c' [err|]]; simpl in *.
    + repeat (split; [done|]). split.
      * intros other Hne. by rewrite lookup_insert_ne.
      * exists fresh. by rewrite lookup_insert_eq.
    + repeat (split; [done|]). split.
      * intros other Hne. by rewrite !lookup_insert_ne.
      * exists c'. by rewrite lookup_insert_eq.
Qed.

Lemma pushStepState_snapshot w clusterName st :
  snapshot (pushStepState w clusterName st) clusterName
  = pushContribution w st clusterName.
Proof.
  unfold snapshot, pushContribution, pushStepState, getOrAddEdsCluster, loadAssignment.
  destruct (edsClusters st !! clusterName) as [c|] eqn:Hc; simpl.
  - destruct (LoadAssignment c) as [l|] eqn:Hl.
    { by rewrite Hc; simpl. }
    unfold updateCluster.
    destruct (clusterInstances w clusterName) as [instances|err]; simpl.
    + rewrite lookup_insert_eq. simpl. by case_match.
    + by rewrite Hc; simpl.
  - unfold updateCluster.
    destruct (clusterInstances w clusterName) as [instances|err]; simpl.
    + rewrite lookup_insert_eq. simpl. by case_match.
    + by rewrite lookup_insert_eq.
Qed.

Lemma pushStepState_snapshot_ne w clusterName st other :
  other ≠ clusterName →
  snapshot (pushStepState w clusterName st) other = snapshot st other.
Proof.
  intros Hne. unfold snapshot.
  destruct (pushStepState_frame w clusterName st) as (_ & _ & _ & Hother & _).
  by rewrite Hother.
Qed.

Lemma pushContribution_snapshot w st clusterName l :
  snapshot st clusterName = Some l → pushContribution w st clusterName = Some l.
Proof. unfold snapshot, pushContribution. by intros ->. Qed.

Lemma pushStepState_cached w clusterName st l :
  snapshot st clusterName = Some l → pushStepState w clusterName st = st.
Proof.
  unfold snapshot, pushStepState, getOrAddEdsCluster, loadAssignment.
  destruct (edsClusters st !! clusterName) as [c|]; [|done]. simpl. by intros ->.
Qed.

Lemma pushStepState_contribution w clusterName st other :
  pushContribution w (pushStepState w clusterName st) other
  = pushContribution w st other.
Proof.
  destruct (decide (other = clusterName)) as [->|Hne].
  - unfold pushContribution at 1. fold (snapshot (pushStepState w clusterName st) clusterName).
    rewrite pushStepState_snapshot.
    destruct (pushContribution w st clusterName) as [l|] eqn:Hc; [done|].
    unfold pushContribution in Hc.
    destruct (edsClusters st !! clusterName ≫= LoadAssignment); [done|].
    by destruct (clusterInstances w clusterName).
  - unfold pushContribution. fold (snapshot (pushStepState w clusterName st) other).
    fold (snapshot st other). by rewrite pushStepState_snapshot_ne.
Qed.

(** The snapshots after the loop of pushEds. *)
Lemma pushSteps_snapshot w clusterNames st n :
  snapshot (foldl (λ s n, pushStepState w n s) st clusterNames) n
  = if decide (n ∈ clusterNames) then pushContribution w st n else snapshot st n.
Proof.
  revert st. induction clusterNames as [|a rest IH]; intros st; cbn [foldl].
  { case_decide as Hin; [by apply elem_of_nil in Hin|done]. }
  rewrite IH. destruct (decide (n ∈ rest)) as [Hin|Hnin].
  - rewrite decide_True by (by right). apply pushStepState_contribution.
  - destruct (decide (n = a)) as [->|Hne].
    + rewrite decide_True by left. apply pushStepState_snapshot.
    + rewrite decide_False.
      * by apply pushStepState_snapshot_ne.
      * intros Hin. apply elem_of_cons in Hin as [?|?]; done.
Qed.

Lemma pushSteps_frame w clusterNames st :
  let st' := foldl (λ s n, pushStepState w n s) st clusterNames in
  connectionNumber st' = connectionNumber st
  ∧ adsClients st' = adsClients st
  ∧ pushChannels st' = pushChannels st
  ∧ (∀ other, other ∉ clusterNames →
       edsClusters st' !! other = edsClusters st !! other)
  ∧ (∀ n c, edsClusters st !! n = Some c →
       ∃ c', edsClusters st' !! n = Some c'
             ∧ EdsClients c' = EdsClients c ∧ FirstUse c' = FirstUse c)
  ∧ (∀ n, n ∈ clusterNames → edsClusters st !! n = None →
       ∃ c', edsClusters st' !! n = Some c'
             ∧ EdsClients c' = ∅ ∧ FirstUse c' = Now w).
Proof.
  revert st. induction clusterNames as [|a rest IH]; intros st; simpl.
  { repeat (split; [done|]). split; [by eauto|].
    intros n Hin. by apply elem_of_nil in Hin. }
  destruct (IH (pushStepState w a st)) as (Hnum & Hads & Hch & Hother & Hkeep & Hnew).
  destruct (pushStepState_frame w a st) as (Hnum1 & Hads1 & Hch1 & Hother1 & c1 & Hc1 & Hm).
  split; [congruence|]. split; [congruence|]. split; [congruence|].
  split; [|split].
  - intros other Hnin. rewrite Hother, Hother1; [done|..];
      intros ?; apply Hnin; subst; by constructor.
  - intros n c Hn. destruct (decide (n = a)) as [->|Hne].
    + rewrite Hn in Hm. destruct Hm as [Hcl Hfu].
      destruct (Hkeep a c1 Hc1) as (c' & Hc' & Hcl' & Hfu').
      exists c'. split; [done|]. split; congruence.
    + apply Hkeep. by rewrite Hother1.
  - intros n Hin Hn. destruct (decide (n = a)) as [->|Hne].
    + rewrite Hn in Hm. destruct Hm as [Hcl Hfu].
      destruct (Hkeep a c1 Hc1) as (c' & Hc' & Hcl' & Hfu').
      exists c'. split; [done|]. split; congruence.
    + apply Hnew.
      * apply elem_of_cons in Hin as [?|?]; done.
      * by rewrite Hother1.
Qed.

(** X7. A push leaves the connection counter, the connection directory
    and the push channels alone.  In the registry it creates an entry,
    without watchers, for each watched cluster that had none (even when
    its recomputation fails), so that the registered names become the old
    ones and the watched ones; it keeps the watchers and the time of first
    use of every entry, and does not touch the entries of clusters the
    connection does not watch. *)
Theorem pushEds_frame (w : World) (con : XdsConnection) (st st' : State)
    (response : DiscoveryResponse) (sendErr : option string) :
  pushEds w con st = Some (st', response, sendErr) →
  connectionNumber st' = connectionNumber st
  ∧ adsClients st' = adsClients st
  ∧ pushChannels st' = pushChannels st
  ∧ dom (edsClusters st') = dom (edsClusters st) ∪ list_to_set (Clusters con)
  ∧ (∀ other, other ∉ Clusters con →
       edsClusters st' !! other = edsClusters st !! other)
  ∧ (∀ n c, edsClusters st !! n = Some c →
       ∃ c', edsClusters st' !! n = Some c'
             ∧ EdsClients c' = EdsClients c ∧ FirstUse c' = FirstUse c)
  ∧ (∀ n, n ∈ Clusters con → edsClusters st !! n = None →
       ∃ c', edsClusters st' !! n = Some c' ∧ EdsClients c' = ∅).
Proof.
  unfold pushEds.
  destruct (pushEdsLoop w (Clusters con) st noStats) as [[st1 acc]|] eqn:Hloop; [|done].
  intros [= <- _ _]. apply pushEdsLoop_state in Hloop as ->.
  destruct (pushSteps_frame w (Clusters con) st)
    as (Hnum & Hads & Hch & Hother & Hkeep & Hnew).
  repeat (split; [done|]). split; [|split; [done|split; [done|]]].
  - apply set_eq. intros n.
    rewrite elem_of_union, !elem_of_dom, elem_of_list_to_set. split.
    + intros Hin. destruct (decide (n ∈ Clusters con)); [by right|].
      left. by rewrite <-Hother.
    + intros [[c Hc]|Hin].
      * destruct (Hkeep n c Hc) as (c' & -> & _). eauto.
      * destruct (edsClusters st !! n) as [c|] eqn:Hc.
        -- destruct (Hkeep n c Hc) as (c' & -> & _). eauto.
        -- destruct (Hnew n Hin Hc) as (c' & -> & _). eauto.
  - intros n Hin Hn. destruct (Hnew n Hin Hn) as (c' & ? & ? & _). eauto.
Qed.

Lemma omap_ext_in {A B} (f g : A → option B) (l : list A) :
  (∀ x, x ∈ l → f x = g x) → omap f l = omap g l.
Proof.
  induction l as [|x l IH]; intros Hfg; csimpl; [done|].
  rewrite (Hfg x) by left. rewrite IH; [done|].
  intros y Hy. apply Hfg. by right.
Qed.

Lemma omap_length_le {A B} (f : A → option B) (l : list A) :
  (length (omap f l) ≤ length l)%nat.
Proof. induction l as [|x l IH]; csimpl; [done|]. destruct (f x); simpl; lia. Qed.

Lemma omap_length_full {A B} (f : A → option B) (l : list A) :
  length (omap f l) = length l → ∀ x, x ∈ l → is_Some (f x).
Proof.
  induction l as [|x l IH]; csimpl; intros Hlen y Hy.
  { by apply elem_of_nil in Hy. }
  pose proof (omap_length_le f l) as Hle.
  destruct (f x) as [b|] eqn:Hfx; simpl in Hlen; [|lia].
  apply elem_of_cons in Hy as [->|Hy]; [by rewrite Hfx|].
  apply IH; [lia|done].
Qed.

Lemma pushSteps_cached w clusterNames st :
  (∀ n, n ∈ clusterNames → is_Some (snapshot st n)) →
  foldl (λ s n, pushStepState w n s) st clusterNames = st.
Proof.
  induction clusterNames as [|a rest IH]; intros Hall; cbn [foldl]; [done|].
  destruct (Hall a) as [l Hl]; [left|].
  rewrite (pushStepState_cached _ _ _ _ Hl). apply IH.
  intros n Hn. apply Hall. by right.
Qed.

(** X8. When a push has produced a resource for every watched cluster, a
    later push for the same connection returns the same resources whatever
    the registry answers by then, and leaves the state as it is: the
    snapshots are served from the cache and not recomputed. *)
Theorem pushEds_serves_cached_snapshots (w w' : World) (con : XdsConnection)
    (st st1 : State) (response : DiscoveryResponse) (sendErr : option string) :
  pushEds w con st = Some (st1, response, sendErr) →
  length (Resources response) = length (Clusters con) →
  ∃ response' sendErr',
    pushEds w' con st1 = Some (st1, response', sendErr')
    ∧ Resources response' = Resources response.
Proof.
  unfold pushEds. intros Hpush Hlen.
  destruct (pushEdsLoop_spec w (Clusters con) st noStats)
    as (st1' & acc & Hloop & Hres & _).
  rewrite Hloop in Hpush. injection Hpush as <- <- <-.
  simpl in Hres, Hlen. rewrite Hres in Hlen.
  pose proof (omap_length_full _ _ Hlen) as Hall.
  pose proof (pushEdsLoop_state _ _ _ _ _ _ Hloop) as Hst1.
  assert (∀ n, n ∈ Clusters con → snapshot st1' n = pushContribution w st n) as Hsnap.
  { intros n Hn. rewrite Hst1, pushSteps_snapshot. by rewrite decide_True. }
  destruct (pushEdsLoop_spec w' (Clusters con) st1' noStats)
    as (st2 & acc2 & Hloop2 & Hres2 & _).
  rewrite Hloop2.
  assert (st2 = st1') as ->.
  { rewrite (pushEdsLoop_state _ _ _ _ _ _ Hloop2). apply pushSteps_cached.
    intros n Hn. rewrite Hsnap by done. by apply Hall. }
  eexists _, _. split; [done|]. simpl. rewrite Hres2, Hres. simpl.
  apply omap_ext_in. intros n Hn.
  destruct (Hall n Hn) as [l Hl]. rewrite Hl.
  apply pushContribution_snapshot. by rewrite Hsnap.
Qed.

End PushExtras.

(** A push for svc-a and for svc-down, which the registry does not resolve. *)
Lemma pushEds_frame_witness :
  ∃ st' response sendErr,
    pushEds (collaborators := sampleCollaborators) 1000
      (sampleConnection ["svc-a"; "svc-down"]) sampleEstablishedState
    = Some (st', response, sendErr)
    ∧ dom (edsClusters st')
      = dom (edsClusters sampleEstablishedState) ∪ list_to_set ["svc-a"; "svc-down"]
    ∧ pushChannels st' = pushChannels sampleEstablishedState.
Proof.
  eexists _, _, _. split; [vm_compute; reflexivity|].
  destruct (pushEds_frame (collaborators := sampleCollaborators) 1000
              (sampleConnection ["svc-a"; "svc-down"]) sampleEstablishedState
              _ _ _ eq_refl) as (_ & _ & Hch & Hdom & _).
  split; [exact Hdom|exact Hch].
Defined.

(** Two pushes for svc-a and svc-b, at times 1000 and 5000. *)
Lemma pushEds_serves_cached_snapshots_witness :
  ∃ st1 response sendErr response' sendErr',
    pushEds (collaborators := sampleCollaborators) 1000
      (sampleConnection ["svc-a"; "svc-b"]) initialState
    = Some (st1, response, sendErr)
    ∧ pushEds (collaborators := sampleCollaborators) 5000
        (sampleConnection ["svc-a"; "svc-b"]) st1
      = Some (st1, response', sendErr')
    ∧ Resources response' = Resources response.
Proof.
  eexists _, _, _.
  destruct (pushEds_serves_cached_snapshots (collaborators := sampleCollaborators)
              1000 5000 (sampleConnection ["svc-a"; "svc-b"]) initialState
              _ _ _ eq_refl eq_refl) as (response' & sendErr' & Hrun & Hres).
  exists response', sendErr'. split; [reflexivity|]. split; [exact Hrun|exact Hres].
Defined.

(** ** Global push: the registry and the signals *)

Section BroadcastExtras.

Context {collaborators : Collaborators}.

Lemma signalClients_frame clusterName clients st :
  match signalClients clusterName clients st with
  | Completed st' | Blocked st' _ _ =>
      edsClusters st' = edsClusters st
      ∧ connectionNumber st' = connectionNumber st
      ∧ adsClients st' = adsClients st
      ∧ pushChannels st ⊆ pushChannels st'
  end.
Proof.
  revert st. induction clients as [|[node p] clients IH]; intros st; simpl; [done|].
  unfold chanSend. destruct (pushChannels st !! p) as [ev|] eqn:Hslot; [done|].
  match goal with |- context [signalClients _ _ ?s] => specialize (IH s) end.
  destruct (signalClients clusterName clients _); simpl in IH;
    destruct IH as (? & ? & ? & Hsub);
    (split; [done|split; [done|split; [done|]]]);
    (etrans; [|exact Hsub]); by apply insert_subseteq.
Qed.

Lemma updateCluster_failed w clusterName c err :
  (updateCluster w clusterName c).2 = Some err → (updateCluster w clusterName c).1 = c.
Proof.
  unfold updateCluster. by destruct (clusterInstances w clusterName).
Qed.

(** The registry after the outer loop of edsPushAll: the entries the loop
    ranges over are recomputed, all of them when it runs to its end and
    those it has reached when it blocks. *)
Lemma pushAllLoop_registry w tmpMap st :
  NoDup tmpMap.*1 →
  (∀ n c, (n, c) ∈ tmpMap → edsClusters st !! n = Some c) →
  match pushAllLoop w tmpMap st with
  | Completed st' =>
      (∀ n c, (n, c) ∈ tmpMap →
         edsClusters st' !! n = Some (updateCluster w n c).1)
      ∧ (∀ n, n ∉ tmpMap.*1 → edsClusters st' !! n = edsClusters st !! n)
  | Blocked st' _ _ =>
      (∀ n c, (n, c) ∈ tmpMap →
         edsClusters st' !! n = Some c
         ∨ edsClusters st' !! n = Some (updateCluster w n c).1)
      ∧ (∀ n, n ∉ tmpMap.*1 → edsClusters st' !! n = edsClusters st !! n)
  end.
Proof.
  revert st. induction tmpMap as [|[n0 c0] tmpMap IH]; intros st Hnd Hagree.
  { simpl. split; [|done]. intros n c Hin. by apply elem_of_nil in Hin. }
  rewrite fmap_cons in Hnd. apply NoDup_cons in Hnd as [Hn0 Hnd]. simpl in Hn0.
  assert (∀ n c, (n, c) ∈ tmpMap → n ≠ n0) as Hfresh.
  { intros n c Hin ->. apply Hn0. apply list_elem_of_fmap. by exists (n0, c). }
  simpl.
  pose proof (updateCluster_failed w n0 c0) as Hfail.
  destruct (updateCluster w n0 c0) as [c' [err|]] eqn:Hupd; simpl in *.
  - specialize (Hfail err eq_refl). subst c'.
    specialize (IH st Hnd).
    destruct (pushAllLoop w tmpMap st) as [st'|st' n1 p1];
      (destruct IH as [Hre Hother]; [by intros n c Hin; apply Hagree; right|]).
    + split.
      * intros n c Hin. apply elem_of_cons in Hin as [[= -> ->]|Hin]; [|by apply Hre].
        rewrite Hupd. simpl. rewrite Hother by done. apply Hagree. left.
      * intros n Hnin. apply Hother. intros Hin. apply Hnin. by right.
    + split.
      * intros n c Hin. apply elem_of_cons in Hin as [[= -> ->]|Hin]; [|by apply Hre].
        left. rewrite Hother by done. apply Hagree. left.
      * intros n Hnin. apply Hother. intros Hin. apply Hnin. by right.
  - pose proof (signalClients_frame n0 (map_to_list (EdsClients c'))
                  (storeCluster n0 c' st)) as Hframe.
    destruct (signalClients n0 _ _) as [st2|st2 n1 p1];
      destruct Hframe as (Hreg & _ & _ & _); simpl in Hreg.
    + specialize (IH st2 Hnd).
      destruct (pushAllLoop w tmpMap st2) as [st'|st' n1 p1];
        (destruct IH as [Hre Hother];
         [intros n c Hin; rewrite Hreg, lookup_insert_ne;
          [apply Hagree; by right|intros <-; by eapply Hfresh]|]).
      * split.
        -- intros n c Hin. apply elem_of_cons in Hin as [[= -> ->]|Hin]; [|by apply Hre].
           rewrite Hupd. simpl. rewrite Hother by done.
           rewrite Hreg. apply lookup_insert_eq.
        -- intros n Hnin. rewrite Hother, Hreg.
           ++ rewrite lookup_insert_ne; [done|]. intros <-. apply Hnin. left.
           ++ intros Hin. apply Hnin. by right.
      * split.
        -- intros n c Hin. apply elem_of_cons in Hin as [[= -> ->]|Hin]; [|by apply Hre].
           right. rewrite Hupd. simpl. rewrite Hother by done.
           rewrite Hreg. apply lookup_insert_eq.
        -- intros n Hnin. rewrite Hother, Hreg.
           ++ rewrite lookup_insert_ne; [done|]. intros <-. apply Hnin. left.
           ++ intros Hin. apply Hnin. by right.
    + split.
      * intros n c Hin. apply elem_of_cons in Hin as [[= -> ->]|Hin].
        -- right. rewrite Hupd. simpl. rewrite Hreg. apply lookup_insert_eq.
        -- left. rewrite Hreg, lookup_insert_ne; [apply Hagree; by right|].
           intros <-. by eapply Hfresh.
      * intros n Hnin. rewrite Hreg, lookup_insert_ne; [done|].
        intros <-. apply Hnin. left.
Qed.

Lemma pushAllLoop_frame w tmpMap st :
  match pushAllLoop w tmpMap st with
  | Completed st' | Blocked st' _ _ =>
      connectionNumber st' = connectionNumber st
      ∧ adsClients st' = adsClients st
      ∧ pushChannels st ⊆ pushChannels st'
  end.
Proof.
  revert st. induction tmpMap as [|[n0 c0] tmpMap IH]; intros st; simpl; [done|].
  destruct (updateCluster w n0 c0) as [c' [err|]]; [apply IH|].
  pose proof (signalClients_frame n0 (map_to_list (EdsClients c'))
                (storeCluster n0 c' st)) as Hframe.
  destruct (signalClients n0 _ _) as [st2|st2 n1 p1];
    destruct Hframe as (_ & Hnum & Hads & Hsub); simpl in *; [|done].
  specialize (IH st2).
  destruct (pushAllLoop w tmpMap st2); destruct IH as (? & ? & ?);
    (split; [congruence|split; [congruence|by etrans]]).
Qed.

(** X9. A global push that runs to its end leaves every entry of the
    registry as its recomputation leaves it (a failed recomputation
    leaving it as it was), and creates or removes no entry; one that
    blocks has done so for the entries it has reached and has not touched
    the others.  In both cases the connection counter and the directory
    are unchanged and no buffered push event is removed or replaced. *)
Theorem edsPushAll_recomputes (w : World) (st : State) :
  match edsPushAll w st with
  | Completed st' =>
      (∀ n, edsClusters st' !! n
            = (λ c, (updateCluster w n c).1) <$> edsClusters st !! n)
      ∧ connectionNumber st' = connectionNumber st
      ∧ adsClients st' = adsClients st
      ∧ pushChannels st ⊆ pushChannels st'
  | Blocked st' _ _ =>
      (∀ n, edsClusters st' !! n = edsClusters st !! n
            ∨ edsClusters st' !! n
              = (λ c, (updateCluster w n c).1) <$> edsClusters st !! n)
      ∧ connectionNumber st' = connectionNumber st
      ∧ adsClients st' = adsClients st
      ∧ pushChannels st ⊆ pushChannels st'
  end.
Proof.
  unfold edsPushAll.
  pose proof (pushAllLoop_registry w (map_to_list (edsClusters st)) st
                (NoDup_fst_map_to_list _)) as Hreg.
  pose proof (pushAllLoop_frame w (map_to_list (edsClusters st)) st) as Hframe.
  destruct (pushAllLoop w _ st) as [st'|st' n1 p1];
    (destruct Hreg as [Hre Hother]; [by intros n c ?%elem_of_map_to_list|]);
    (split; [|done]); intros n;
    destruct (edsClusters st !! n) as [c|] eqn:Hc; simpl.
  - apply Hre. by apply elem_of_map_to_list.
  - rewrite <-Hc. apply Hother. intros Hin.
    apply list_elem_of_fmap in Hin as ([n' c'] & -> & Hin).
    apply elem_of_map_to_list in Hin. simpl in Hc. congruence.
  - apply Hre. by apply elem_of_map_to_list.
  - left. rewrite <-Hc. apply Hother. intros Hin.
    apply list_elem_of_fmap in Hin as ([n' c'] & -> & Hin).
    apply elem_of_map_to_list in Hin. simpl in Hc. congruence.
Qed.

Lemma signalClients_idle clusterName clients st :
  NoDup clients.*2 →
  Forall (λ p, pushChannels st !! p = None) clients.*2 →
  ∃ st', signalClients clusterName clients st = Completed st'.
Proof.
  revert st. induction clients as [|[node p] clients IH]; intros st Hnd Hall; simpl.
  { by eauto. }
  rewrite fmap_cons in Hnd, Hall. simpl in Hnd, Hall.
  apply NoDup_cons in Hnd as [Hp Hnd]. apply Forall_cons in Hall as [Hnone Hall].
  rewrite (chanSend_empty _ _ _ Hnone). apply IH; [done|].
  rewrite Forall_forall in Hall. apply Forall_forall. intros q Hq. simpl.
  rewrite lookup_insert_ne; [by apply Hall|]. intros <-. done.
Qed.

Lemma signalClients_channels clusterName clients st st' q :
  signalClients clusterName clients st = Completed st' →
  pushChannels st' !! q
  = if decide (q ∈ clients.*2) then Some {| clusters := [clusterName] |}
    else pushChannels st !! q.
Proof.
  revert st. induction clients as [|[node p] clients IH]; intros st;
    cbn [signalClients].
  { intros [= <-]. case_decide as Hin; [by apply elem_of_nil in Hin|done]. }
  unfold chanSend. destruct (pushChannels st !! p) as [ev|] eqn:Hslot; [done|].
  intros Hrun. rewrite (IH _ Hrun). rewrite fmap_cons. cbn [snd pushChannels set_pushChannels].
  destruct (decide (q ∈ clients.*2)) as [Hin|Hnin].
  - rewrite decide_True; [done|by right].
  - destruct (decide (q = p)) as [->|Hne].
    + rewrite decide_True by left. apply lookup_insert_eq.
    + rewrite decide_False.
      * by rewrite lookup_insert_ne.
      * intros Hin. apply elem_of_cons in Hin as [?|?]; done.
Qed.

Lemma signalled_cons w n c tmpMap :
  signalled w ((n, c) :: tmpMap)
  = (if is_ok (clusterInstances w n) then (map_to_list (EdsClients c)).*2 else [])
    ++ signalled w tmpMap.
Proof. done. Qed.

(** The outer loop of edsPushAll over watchers that are pairwise distinct
    and have an empty push channel: no send has to wait, and each watcher
    is left with the event of its cluster. *)
Lemma pushAllLoop_idle w tmpMap st :
  NoDup (signalled w tmpMap) →
  Forall (λ p, pushChannels st !! p = None) (signalled w tmpMap) →
  ∃ st', pushAllLoop w tmpMap st = Completed st'
    ∧ (∀ q, q ∉ signalled w tmpMap → pushChannels st' !! q = pushChannels st !! q)
    ∧ (∀ n c node p,
         (n, c) ∈ tmpMap →
         is_ok (clusterInstances w n) = true →
         EdsClients c !! node = Some p →
         pushChannels st' !! p = Some {| clusters := [n] |}).
Proof.
  revert st. induction tmpMap as [|[n0 c0] tmpMap IH]; intros st.
  { intros _ _. exists st. split; [done|]. split; [done|].
    intros n c node p Hin. by apply elem_of_nil in Hin. }
  rewrite signalled_cons. cbn [pushAllLoop].
  pose proof (updateCluster_EdsClients w n0 c0) as Hclients.
  pose proof (updateCluster_status w n0 c0) as Hstatus.
  destruct (updateCluster w n0 c0) as [c' [err|]]; simpl in Hclients, Hstatus.
  - destruct (is_ok (clusterInstances w n0)) eqn:Hok;
      [destruct Hstatus as [_ Hs]; by specialize (Hs eq_refl)|].
    simpl. intros Hnd Hall.
    destruct (IH st Hnd Hall) as (st' & Hrun & Hother & Hset).
    exists st'. split; [done|]. split; [done|].
    intros n c node p Hin Hokn Hw.
    apply elem_of_cons in Hin as [[= -> ->]|Hin]; [congruence|by eauto].
  - rewrite (proj1 Hstatus eq_refl). rewrite Hclients.
    intros Hnd Hall. apply NoDup_app in Hnd as (Hnd1 & Hdisj & Hnd2).
    apply Forall_app in Hall as [Hall1 Hall2].
    destruct (signalClients_idle n0 (map_to_list (EdsClients c0))
                (storeCluster n0 c' st) Hnd1 Hall1) as [st2 Hsig].
    rewrite Hsig.
    pose proof (λ q, signalClients_channels n0 _ _ _ q Hsig) as Hch. simpl in Hch.
    destruct (IH st2 Hnd2) as (st' & Hrun & Hother & Hset).
    { rewrite Forall_forall in Hall2. apply Forall_forall. intros q Hq.
      rewrite Hch, decide_False; [by apply Hall2|].
      intros Hq'. by apply (Hdisj q). }
    exists st'. split; [done|]. split.
    + intros q Hq. rewrite Hother, Hch.
      * rewrite decide_False; [done|]. intros Hq'. apply Hq.
        apply elem_of_app. by left.
      * intros Hq'. apply Hq. apply elem_of_app. by right.
    + intros n c node p Hin Hokn Hw.
      apply elem_of_cons in Hin as [[= -> ->]|Hin]; [|by eauto].
      assert (p ∈ (map_to_list (EdsClients c0)).*2) as Hp.
      { apply list_elem_of_fmap. exists (node, p). split; [done|].
        by apply elem_of_map_to_list. }
      rewrite Hother by (by apply Hdisj). rewrite Hch. by rewrite decide_True.
Qed.

(** X10. When the connections a global push has to signal (the watchers of
    the entries whose recomputation succeeds) are pairwise distinct and
    have an empty push channel, and no other global push runs meanwhile,
    none of its sends has to wait: the cycle runs to its end, leaves each
    of these connections with one buffered event that names the cluster
    it watches, and leaves the push channel of every other connection as
    it was. *)
Theorem edsPushAll_signals_idle_watchers (w : World) (st : State) :
  NoDup (signalled w (map_to_list (edsClusters st))) →
  Forall (λ p, pushChannels st !! p = None)
         (signalled w (map_to_list (edsClusters st))) →
  ∃ st', edsPushAll w st = Completed st'
    ∧ (∀ clusterName c node edsCon,
         edsClusters st !! clusterName = Some c →
         is_ok (clusterInstances w clusterName) = true →
         EdsClients c !! node = Some edsCon →
         pushChannels st' !! edsCon = Some {| clusters := [clusterName] |})
    ∧ (∀ q, q ∉ signalled w (map_to_list (edsClusters st)) →
         pushChannels st' !! q = pushChannels st !! q).
Proof.
  intros Hnd Hall. unfold edsPushAll.
  destruct (pushAllLoop_idle w _ st Hnd Hall) as (st' & Hrun & Hother & Hset).
  exists st'. split; [done|]. split; [|done].
  intros clusterName c node edsCon Hc Hok Hw.
  eapply Hset; [|done..]. by apply elem_of_map_to_list.
Qed.

End BroadcastExtras.

(** The only watcher of the sample has an empty push channel. *)
Lemma edsPushAll_signals_idle_watchers_witness :
  ∃ st', edsPushAll (collaborators := sampleCollaborators) 2000 sampleEstablishedState
         = Completed st'
    ∧ pushChannels st' !! 7%nat = Some {| clusters := ["svc-a"] |}.
Proof.
  destruct (edsPushAll_signals_idle_watchers (collaborators := sampleCollaborators)
              2000 sampleEstablishedState) as (st' & Hrun & Hset & _).
  - vm_compute. apply NoDup_singleton.
  - vm_compute. repeat constructor.
  - exists st'. split; [exact Hrun|].
    apply (Hset "svc-a"
             {| LoadAssignment := None; FirstUse := 1000;
                EdsClients := {[ "sidecar-1" := 7%nat ]}; NonEmptyTime := 0 |}
             "sidecar-1" 7%nat); vm_compute; reflexivity.
Defined.

(** ** Stream handler: the loop *)

Section StreamExtras.

Context {collaborators : Collaborators}.

Lemma entryKept_refl node connection c : entryKept node connection c c.
Proof. by repeat split. Qed.

Lemma entryKept_trans node connection c1 c2 c3 :
  entryKept node connection c1 c2 → entryKept node connection c2 c3 →
  entryKept node connection c1 c3.
Proof.
  intros (Ha1 & Hb1 & Hc1 & Hw1) (Ha2 & Hb2 & Hc2 & Hw2).
  repeat split; try congruence. intros node' p' Hn Hor. apply Hw2; [|done]. by apply Hw1.
Qed.

Lemma addEdsCon_entryKept w clusterName node connection st n c :
  edsClusters st !! n = Some c →
  ∃ c', edsClusters (addEdsCon w clusterName node connection st) !! n = Some c'
        ∧ entryKept node connection c c'.
Proof.
  intros Hn. destruct (decide (n = clusterName)) as [->|Hne].
  - rewrite addEdsCon_lookup. unfold getOrAddEdsCluster. rewrite Hn. simpl.
    eexists. split; [done|]. repeat split; simpl.
    intros node' p' Hp' [Hne| ->].
    + by rewrite lookup_insert_ne.
    + destruct (decide (node = node')) as [->|Hne']; [apply lookup_insert_eq|].
      by rewrite lookup_insert_ne.
  - rewrite addEdsCon_lookup_ne by done. exists c. split; [done|].
    apply entryKept_refl.
Qed.

Lemma addEdsCon_all_entryKept w clusterNames node connection st n c :
  edsClusters st !! n = Some c →
  ∃ c', edsClusters (foldl (λ s cn, addEdsCon w cn node connection s) st clusterNames)
          !! n = Some c'
        ∧ entryKept node connection c c'.
Proof.
  revert st c. induction clusterNames as [|a rest IH]; intros st c Hn; simpl.
  { exists c. split; [done|]. apply entryKept_refl. }
  destruct (addEdsCon_entryKept w a node connection st n c Hn) as (c1 & Hc1 & Hk1).
  destruct (IH _ _ Hc1) as (c2 & Hc2 & Hk2).
  exists c2. split; [done|]. by eapply entryKept_trans.
Qed.

Lemma addEdsCon_frame w clusterName node connection st :
  pushChannels (addEdsCon w clusterName node connection st) = pushChannels st
  ∧ connectionNumber (addEdsCon w clusterName node connection st) = connectionNumber st
  ∧ adsClients (addEdsCon w clusterName node connection st) = adsClients st.
Proof.
  unfold addEdsCon, getOrAddEdsCluster. by destruct (edsClusters st !! clusterName).
Qed.

Lemma addEdsCon_all_frame w clusterNames node connection st :
  let st' := foldl (λ s cn, addEdsCon w cn node connection s) st clusterNames in
  pushChannels st' = pushChannels st
  ∧ connectionNumber st' = connectionNumber st
  ∧ adsClients st' = adsClients st.
Proof.
  revert st. induction clusterNames as [|a rest IH]; intros st; simpl; [done|].
  destruct (IH (addEdsCon w a node connection st)) as (-> & -> & ->).
  apply addEdsCon_frame.
Qed.

Lemma assignIdentity_frame (discReq : DiscoveryRequest) st ss conID1 st1 :
  match Node discReq with
  | Some node =>
      if bool_decide (conID ss = "") then connectionID node st else (conID ss, st)
  | None => (conID ss, st)
  end = (conID1, st1) →
  edsClusters st1 = edsClusters st
  ∧ adsClients st1 = adsClients st
  ∧ pushChannels st1 = pushChannels st
  ∧ (conID ss ≠ "" → conID1 = conID ss ∧ st1 = st).
Proof.
  destruct (Node discReq) as [node|]; [case_bool_decide|];
    intros [= <- <-]; done.
Qed.

(** X11. Handling a request never consumes or sends a push event, and
    never removes an entry of the registry: every entry keeps its
    snapshot, its timestamps and its watchers, except that the key of the
    connection's own identity is taken over by this connection. *)
Theorem receiveRequest_keeps_entries (w : World) (discReq : DiscoveryRequest)
    (st st' : State) (ss ss' : StreamState) (flow : Flow) :
  receiveRequest w discReq st ss = (st', ss', flow) →
  pushChannels st' = pushChannels st
  ∧ ∀ n c, edsClusters st !! n = Some c →
      ∃ c', edsClusters st' !! n = Some c'
            ∧ entryKept (conID ss') (conPtr ss) c c'.
Proof.
  unfold receiveRequest. cbv zeta.
  destruct (match Node discReq with
            | Some node =>
                if bool_decide (conID ss = "") then connectionID node st
                else (conID ss, st)
            | None => (conID ss, st)
            end) as [conID1 st1] eqn:Hid.
  apply assignIdentity_frame in Hid as (Hreg & _ & Hch & _).
  destruct (_ && bool_decide (0 < _)%nat).
  - intros [= <- <- <-]. split; [done|]. intros n c Hn.
    exists c. rewrite Hreg. split; [done|]. apply entryKept_refl.
  - destruct (added _); intros [= <- <- <-]; simpl;
      (split; [rewrite <-Hch; apply addEdsCon_all_frame|]);
      intros n c Hn; apply addEdsCon_all_entryKept; by rewrite Hreg.
Qed.

Lemma pushEds_state w c st st' response sendErr :
  pushEds w c st = Some (st', response, sendErr) →
  st' = foldl (λ s n, pushStepState w n s) st (Clusters c).
Proof.
  unfold pushEds.
  destruct (pushEdsLoop w (Clusters c) st noStats) as [[st1 acc]|] eqn:Hloop; [|done].
  intros [= <- _ _]. by eapply pushEdsLoop_state.
Qed.

Lemma pushEds_total w c st :
  ∃ st' response sendErr, pushEds w c st = Some (st', response, sendErr).
Proof.
  unfold pushEds.
  destruct (pushEdsLoop_spec w (Clusters c) st noStats) as (st' & acc' & -> & _).
  by eexists _, _, _.
Qed.

Lemma afterSelect_Running w st ss st' ss' sends :
  afterSelect w st ss = Running st' ss' sends →
  ss' = ss
  ∧ ((Clusters (con ss) = [] ∧ st' = st ∧ sends = [])
     ∨ (Clusters (con ss) ≠ []
        ∧ ∃ response, pushEds w (con ss) st = Some (st', response, None)
                      ∧ sends = [response])).
Proof.
  unfold afterSelect. case_bool_decide as Hlen.
  - destruct (pushEds_total w (con ss) st) as (st1 & response & [err|] & ->); [done|].
    intros [= <- <- <-]. split; [done|]. right. split; [|by eauto].
    intros Hnil. rewrite Hnil in Hlen. simpl in Hlen. lia.
  - intros [= <- <- <-]. split; [done|]. left.
    destruct (Clusters (con ss)); [done|]. simpl in Hlen. lia.
Qed.

Lemma afterSelect_sends w st ss :
  afterSelect w st ss ≠ Panicked
  ∧ length (sendsOf (afterSelect w st ss))
    = if decide (Clusters (con ss) = []) then 0%nat else 1%nat.
Proof.
  unfold afterSelect. case_bool_decide as Hlen.
  - rewrite decide_False.
    2:{ intros Hnil. rewrite Hnil in Hlen. simpl in Hlen. lia. }
    by destruct (pushEds_total w (con ss) st) as (st1 & response & [err|] & ->).
  - rewrite decide_True; [done|].
    destruct (Clusters (con ss)); [done|]. simpl in Hlen. lia.
Qed.

Lemma afterSelect_frame w st ss st' ss' sends :
  afterSelect w st ss = Running st' ss' sends →
  connectionNumber st' = connectionNumber st
  ∧ adsClients st' = adsClients st
  ∧ pushChannels st' = pushChannels st
  ∧ ∀ n c, edsClusters st !! n = Some c →
      ∃ c', edsClusters st' !! n = Some c' ∧ EdsClients c' = EdsClients c.
Proof.
  intros Hrun.
  apply afterSelect_Running in Hrun as [_ [(_ & -> & _)|(_ & response & Hpush & _)]].
  { repeat (split; [done|]). eauto. }
  apply pushEds_state in Hpush as ->.
  destruct (pushSteps_frame w (Clusters (con ss)) st)
    as (Hnum & Hads & Hch & _ & Hkeep & _).
  repeat (split; [done|]). intros n c Hn.
  destruct (Hkeep n c Hn) as (c' & ? & ? & _). eauto.
Qed.

(** What the case of a request does to the variables of the stream. *)
Lemma receiveRequest_stream w discReq st ss st' ss' flow :
  receiveRequest w discReq st ss = (st', ss', flow) →
  conPtr ss' = conPtr ss
  ∧ initialRequestReceived ss' = true
  ∧ (conID ss ≠ "" →
       conID ss' = conID ss ∧ connectionNumber st' = connectionNumber st)
  ∧ (streamInvariant ss →
       streamInvariant ss'
       ∧ (initialRequestReceived ss = true → deferred ss' = deferred ss)).
Proof.
  unfold receiveRequest. cbv zeta.
  destruct (match Node discReq with
            | Some node =>
                if bool_decide (conID ss = "") then connectionID node st
                else (conID ss, st)
            | None => (conID ss, st)
            end) as [conID1 st1] eqn:Hid.
  apply assignIdentity_frame in Hid as (Hreg & Hads & Hch & Hsame).
  destruct (_ && bool_decide (0 < _)%nat) eqn:Hack.
  - intros [= <- <- <-]. simpl.
    apply andb_true_iff in Hack as [Hirr1 _].
    assert (initialRequestReceived ss = true) as Hirr.
    { destruct (initialRequestReceived ss); [done|]. by simpl in Hirr1. }
    rewrite Hirr in *. simpl in *.
    split; [done|]. split.
    { by destruct (bool_decide _). }
    split.
    { intros Hne. by destruct (Hsame Hne) as [-> ->]. }
    intros [(Hf & _)|(_ & Hadd & Hdef)]; [congruence|].
    split; [|done]. right. simpl. split; [|done]. by destruct (bool_decide _).
  - destruct (foldl _ st1 _) as [reg num ads chans] eqn:Hfold.
    pose proof (addEdsCon_all_frame w (ResourceNames discReq) conID1 (conPtr ss) st1)
      as (_ & Hnum & _). simpl in Hnum. simpl in Hfold. rewrite Hfold in Hnum.
    simpl in Hnum.
    destruct (added (con ss)) eqn:Hadded; simpl; rewrite Hadded;
      intros [= <- <- <-]; simpl.
    + split; [done|]. split; [done|]. split.
      { intros Hne. destruct (Hsame Hne) as [-> ->]. done. }
      intros [(_ & Hf & _)|(_ & _ & Hdef)]; [congruence|].
      split; [|done]. right. by simpl.
    + split; [done|]. split; [done|]. split.
      { intros Hne. destruct (Hsame Hne) as [-> ->]. done. }
      intros [(Hirr & _)|(_ & Hf & _)]; [|congruence].
      split; [|congruence]. right. simpl. eauto.
Qed.

(** X12. An iteration of StreamEndpoints never panics and hands at most
    one response to the stream.  When the loop goes on, the connection
    pointer is unchanged; an identity, once assigned, is kept and the
    counter is not advanced again; a request always leaves the request
    flag set; and the variables of the stream stay coherent: from the
    first request on, the connection is in the directory and the removal
    is deferred, and the deferred removal does not change. *)
Theorem streamIteration_invariant (w : World) (ev : Event) (st : State)
    (ss : StreamState) :
  streamIteration w ev st ss ≠ Panicked
  ∧ (length (sendsOf (streamIteration w ev st ss)) ≤ 1)%nat
  ∧ ∀ st' ss' sends,
      streamIteration w ev st ss = Running st' ss' sends →
      conPtr ss' = conPtr ss
      ∧ (conID ss ≠ "" →
           conID ss' = conID ss ∧ connectionNumber st' = connectionNumber st)
      ∧ (∀ discReq, ev = Request discReq → initialRequestReceived ss' = true)
      ∧ (streamInvariant ss →
           streamInvariant ss'
           ∧ (initialRequestReceived ss = true → deferred ss' = deferred ss)).
Proof.
  destruct ev as [discReq|receiveError|]; simpl.
  - destruct (receiveRequest w discReq st ss) as [[st1 ss1] flow] eqn:Hrecv.
    apply receiveRequest_stream in Hrecv as (Hptr & Hirr & Hid & Hinv).
    destruct flow.
    + split; [done|]. split; [simpl; lia|].
      intros st' ss' sends [= <- <- <-]. eauto.
    + destruct (afterSelect_sends w st1 ss1) as [Hnp Hlen].
      split; [done|]. split; [rewrite Hlen; case_decide; lia|].
      intros st' ss' sends Hrun.
      pose proof (afterSelect_frame _ _ _ _ _ _ Hrun) as (Hnum & _).
      apply afterSelect_Running in Hrun as [-> _].
      split; [done|]. split.
      { intros Hne. destruct (Hid Hne) as [? ?]. split; congruence. }
      split; [done|]. done.
  - split; [done|]. split; [simpl; lia|]. done.
  - destruct (chanRecv (conPtr ss) st) as [[ev st1]|] eqn:Hrecv.
    2:{ split; [done|]. split; [simpl; lia|]. done. }
    destruct (afterSelect_sends w st1 ss) as [Hnp Hlen].
    split; [done|]. split; [rewrite Hlen; case_decide; lia|].
    intros st' ss' sends Hrun.
    pose proof (afterSelect_frame _ _ _ _ _ _ Hrun) as (Hnum & _).
    apply afterSelect_Running in Hrun as [-> _].
    split; [done|]. split; [|split; [done|done]].
    intros _. split; [done|]. rewrite Hnum.
    unfold chanRecv in Hrecv. destruct (pushChannels st !! conPtr ss); [|done].
    by injection Hrecv as <- <-.
Qed.

Lemma watches_frame st st' clusterName node connection :
  (∀ n c, edsClusters st !! n = Some c →
     ∃ c', edsClusters st' !! n = Some c' ∧ EdsClients c' = EdsClients c) →
  watches st clusterName node connection → watches st' clusterName node connection.
Proof.
  intros Hkeep (c & Hc & Hnode).
  destruct (Hkeep _ _ Hc) as (c' & Hc' & Hcl). exists c'. by rewrite Hcl.
Qed.

Lemma receiveRequest_watchesAll w discReq st ss st' ss' flow :
  receiveRequest w discReq st ss = (st', ss', flow) →
  watchesAll st ss → watchesAll st' ss'.
Proof.
  unfold receiveRequest. cbv zeta.
  destruct (match Node discReq with
            | Some node =>
                if bool_decide (conID ss = "") then connectionID node st
                else (conID ss, st)
            | None => (conID ss, st)
            end) as [conID1 st1] eqn:Hid.
  apply assignIdentity_frame in Hid as (Hreg & _).
  destruct (_ && bool_decide (0 < _)%nat).
  - intros [= <- <- <-] Hall. unfold watchesAll, watches in *. simpl.
    by rewrite Hreg.
  - destruct (added _); intros [= <- <- <-] _; unfold watchesAll; simpl;
      apply addEdsCon_all_watches.
Qed.

(** X13. If the connection is registered as a watcher of every cluster of
    its watched list, it still is after an iteration of the loop. *)
Theorem streamIteration_watchesAll (w : World) (ev : Event) (st st' : State)
    (ss ss' : StreamState) (sends : list DiscoveryResponse) :
  streamIteration w ev st ss = Running st' ss' sends →
  watchesAll st ss → watchesAll st' ss'.
Proof.
  destruct ev as [discReq|receiveError|]; simpl; [| done |].
  - destruct (receiveRequest w discReq st ss) as [[st1 ss1] flow] eqn:Hrecv.
    intros Hrun Hall.
    apply (receiveRequest_watchesAll _ _ _ _ _ _ _ Hrecv) in Hall.
    destruct flow; [by injection Hrun as <- <- <-|].
    pose proof (afterSelect_frame _ _ _ _ _ _ Hrun) as (_ & _ & _ & Hkeep).
    apply afterSelect_Running in Hrun as [-> _].
    eapply Forall_impl; [exact Hall|]. intros n. by apply watches_frame.
  - unfold chanRecv. destruct (pushChannels st !! conPtr ss) as [ev|]; [|done].
    intros Hrun Hall.
    pose proof (afterSelect_frame _ _ _ _ _ _ Hrun) as (_ & _ & _ & Hkeep).
    apply afterSelect_Running in Hrun as [-> _].
    eapply Forall_impl; [exact Hall|]. intros n. by apply watches_frame.
Qed.

(** X14. The push case of the select statement is ready exactly when an
    event is buffered in the push channel of the connection.  It hands
    one response to the stream when the connection watches a cluster, and
    none otherwise; when the loop goes on the stream variables are
    unchanged and the channel is empty again, so that the next send to it
    proceeds. *)
Theorem pushSignal_consumed (w : World) (st : State) (ss : StreamState) :
  (streamIteration w PushSignal st ss = NotReady
   ↔ pushChannels st !! conPtr ss = None)
  ∧ length (sendsOf (streamIteration w PushSignal st ss))
    = (if decide (pushChannels st !! conPtr ss = None ∨ Clusters (con ss) = [])
       then 0%nat else 1%nat)
  ∧ ∀ st' ss' sends,
      streamIteration w PushSignal st ss = Running st' ss' sends →
      ss' = ss
      ∧ pushChannels st' = delete (conPtr ss) (pushChannels st)
      ∧ ∀ ev, ∃ st'', chanSend (conPtr ss) ev st' = Some st''.
Proof.
  simpl. unfold chanRecv.
  destruct (pushChannels st !! conPtr ss) as [ev|] eqn:Hslot.
  - set (st1 := set_pushChannels _ st).
    destruct (afterSelect_sends w st1 ss) as [Hnp Hlen].
    split; [|split].
    + split; [|done]. intros Hrun. revert Hrun. unfold afterSelect.
      case_bool_decide; [|done].
      by destruct (pushEds_total w (con ss) st1) as (? & ? & [?|] & ->).
    + rewrite Hlen. destruct (decide (Clusters (con ss) = [])) as [Hnil|Hnil].
      * rewrite decide_True; [done|by right].
      * rewrite decide_False; [done|]. by intros [?|?].
    + intros st' ss' sends Hrun.
      pose proof (afterSelect_frame _ _ _ _ _ _ Hrun) as (_ & _ & Hch & _).
      apply afterSelect_Running in Hrun as [-> _].
      split; [done|]. split; [done|]. intros ev'.
      rewrite chanSend_empty; [by eauto|].
      rewrite Hch. simpl. apply lookup_delete_eq.
  - split; [done|]. split; [|done].
    rewrite decide_True; [done|by left].
Qed.

(** X15. After a global push that ran to its end, a watcher of a cluster
    whose recomputation succeeded has a push event to receive, and when
    its stream handles it, one response is handed to the stream, holding
    for that cluster the snapshot just computed from the registry. *)
Theorem edsPushAll_then_pushSignal (w w' : World) (st st1 : State)
    (clusterName node : string) (c : EdsCluster) (instances : list ServiceInstance)
    (ss : StreamState) :
  edsPushAll w st = Completed st1 →
  edsClusters st !! clusterName = Some c →
  clusterInstances w clusterName = Ok instances →
  EdsClients c !! node = Some (conPtr ss) →
  clusterName ∈ Clusters (con ss) →
  ∃ response,
    sendsOf (streamIteration w' PushSignal st1 ss) = [response]
    ∧ {| ClusterName := clusterName;
         Endpoints := localityLbEndpointsFromInstances instances |}
      ∈ Resources response.
Proof.
  intros Hall Hc Hi Hw Hin. simpl.
  pose proof Hall as Hch. unfold edsPushAll in Hch.
  apply pushAllLoop_Completed in Hch as [_ Hch].
  destruct (Hch clusterName c node (conPtr ss)) as [_ [ev Hset]];
    [by apply elem_of_map_to_list|by rewrite Hi|done|].
  pose proof (pushAllLoop_registry w (map_to_list (edsClusters st)) st
                (NoDup_fst_map_to_list _)) as Hreg.
  fold (edsPushAll w st) in Hreg. rewrite Hall in Hreg.
  destruct Hreg as [Hre _]; [by intros n c' ?%elem_of_map_to_list|].
  specialize (Hre clusterName c). rewrite (updateCluster_ok _ _ _ _ Hi) in Hre.
  simpl in Hre.
  unfold chanRecv. rewrite Hset. unfold afterSelect.
  rewrite bool_decide_eq_true_2.
  2:{ destruct (Clusters (con ss)); [by apply elem_of_nil in Hin|simpl; lia]. }
  set (st2 := set_pushChannels _ st1).
  unfold pushEds.
  destruct (pushEdsLoop_spec w' (Clusters (con ss)) st2 noStats)
    as (st3 & acc & -> & Hres & _).
  eexists. split.
  { by destruct (Send w' _ _). }
  simpl. rewrite Hres. simpl.
  apply list_elem_of_omap. exists clusterName. split; [done|].
  apply pushContribution_snapshot. unfold snapshot. simpl.
  rewrite Hre; [done|]. by apply elem_of_map_to_list.
Qed.

End StreamExtras.

(** The sidecar of the sample asks for svc-a and svc-b. *)
Lemma receiveRequest_keeps_entries_witness :
  ∃ st' ss' flow,
    receiveRequest (collaborators := sampleCollaborators) 1000 sampleSupersetRequest
      sampleEstablishedState sampleEstablishedStream = (st', ss', flow)
    ∧ pushChannels st' = pushChannels sampleEstablishedState.
Proof.
  eexists _, _, _. split; [reflexivity|].
  apply (receiveRequest_keeps_entries (collaborators := sampleCollaborators)
           1000 sampleSupersetRequest sampleEstablishedState _
           sampleEstablishedStream _ _ eq_refl).
Defined.

(** The iteration that handles the request for svc-a and svc-b. *)
Lemma streamIteration_invariant_witness :
  ∃ st' ss' sends,
    streamIteration (collaborators := sampleCollaborators) 1000
      (Request sampleSupersetRequest) sampleEstablishedState sampleEstablishedStream
    = Running st' ss' sends
    ∧ streamInvariant ss'
    ∧ conID ss' = conID sampleEstablishedStream
    ∧ deferred ss' = deferred sampleEstablishedStream.
Proof.
  eexists _, _, _. split; [vm_compute; reflexivity|].
  destruct (streamIteration_invariant (collaborators := sampleCollaborators) 1000
              (Request sampleSupersetRequest) sampleEstablishedState
              sampleEstablishedStream) as (_ & _ & Hrun).
  destruct (Hrun _ _ _ eq_refl) as (_ & Hid & _ & Hinv).
  destruct Hinv as [Hinv Hdef].
  { right. vm_compute. eauto. }
  split; [exact Hinv|]. split.
  - apply Hid. vm_compute. discriminate.
  - apply Hdef. vm_compute. reflexivity.
Defined.

(** The sidecar of the sample watches svc-a before the request. *)
Lemma streamIteration_watchesAll_witness :
  ∃ st' ss' sends,
    streamIteration (collaborators := sampleCollaborators) 1000
      (Request sampleSupersetRequest) sampleEstablishedState sampleEstablishedStream
    = Running st' ss' sends
    ∧ watchesAll st' ss'.
Proof.
  eexists _, _, _. split; [vm_compute; reflexivity|].
  apply (streamIteration_watchesAll (collaborators := sampleCollaborators) 1000
           (Request sampleSupersetRequest) sampleEstablishedState _
           sampleEstablishedStream _ _ eq_refl).
  unfold watchesAll. vm_compute. repeat constructor.
  eexists. split; reflexivity.
Defined.

(** The push case before and after the global push of the sample. *)
Lemma pushSignal_consumed_witness :
  streamIteration (collaborators := sampleCollaborators) 1000 PushSignal
    sampleEstablishedState sampleEstablishedStream = NotReady
  ∧ ∃ st' ss' sends,
      streamIteration (collaborators := sampleCollaborators) 3000 PushSignal
        sampleAfterGlobalPush sampleEstablishedStream = Running st' ss' sends
      ∧ pushChannels st'
        = delete (conPtr sampleEstablishedStream) (pushChannels sampleAfterGlobalPush).
Proof.
  split.
  - apply (pushSignal_consumed (collaborators := sampleCollaborators)).
    vm_compute. reflexivity.
  - eexists _, _, _. split; [vm_compute; reflexivity|].
    destruct (pushSignal_consumed (collaborators := sampleCollaborators) 3000
                sampleAfterGlobalPush sampleEstablishedStream) as (_ & _ & Hrun).
    destruct (Hrun _ _ _ eq_refl) as (_ & Hch & _). exact Hch.
Defined.

(** The sidecar of the sample after the global push at time 2000. *)
Lemma edsPushAll_then_pushSignal_witness :
  ∃ response,
    sendsOf (streamIteration (collaborators := sampleCollaborators) 3000 PushSignal
               sampleAfterGlobalPush sampleEstablishedStream) = [response]
    ∧ {| ClusterName := "svc-a";
         Endpoints :=
           localityLbEndpointsFromInstances
             [sampleInstance "10.0.0.1" 80 "z1"; sampleInstance "10.0.0.2" 80 "z1";
              sampleInstance "10.0.0.3" 80 "z2"] |}
      ∈ Resources response.
Proof.
  apply (edsPushAll_then_pushSignal (collaborators := sampleCollaborators)
           2000 3000 sampleEstablishedState sampleAfterGlobalPush "svc-a" "sidecar-1"
           {| LoadAssignment := None; FirstUse := 1000;
              EdsClients := {[ "sidecar-1" := 7%nat ]}; NonEmptyTime := 0 |}).
  - vm_compute. reflexivity.
  - vm_compute. reflexivity.
  - vm_compute. reflexivity.
  - vm_compute. reflexivity.
  - vm_compute. left.
Defined.
